(** * Debate Calculator: the signal extractor and the debate orchestrator

    A shallow embedding of [debate_calc/app/orchestrator.py] (with the
    prompt builders of [debate_calc/app/prompts.py] it calls) and the
    properties of the debate protocol proved about it.

    Text.  A Python [str] is modelled as a [string]: one [ascii] per
    code point, so the model covers the texts whose code points are
    below 256.  On those texts [re.IGNORECASE] folds exactly the
    letters A-Z onto a-z for the (pure ASCII) patterns used here.

    Effects.  The two model clients, wrapped by the pace controller's
    [execute_turn], and the pace controller's [inter_turn_gap] are the
    collaborators of the orchestrator.  They are kept abstract: a turn
    is a state transformer on an arbitrary world that either returns the
    generated text or raises.  Wall-clock values (timestamps, turn
    timings, total time and the timing summary) are not part of the
    model, and neither is the telemetry logger, which only observes
    the run. *)

From Stdlib Require Import List String Ascii ZArith Bool Lia Arith.
From Stdlib Require Import DecimalString.
Import ListNotations.

Local Open Scope string_scope.
Local Open Scope Z_scope.

(** ** Python string primitives *)

Module Text.

Definition code (c : ascii) : nat := nat_of_ascii c.

(** [str.isspace] on one code point below 256. *)
Definition isspace (c : ascii) : bool :=
  let n := code c in
  ((9 <=? n) && (n <=? 13) || (28 <=? n) && (n <=? 32)
   || (n =? 133) || (n =? 160))%nat.

(** [str.lower] on one code point below 256: A-Z, and the Latin-1
    capitals except the multiplication sign. *)
Definition lower_char (c : ascii) : ascii :=
  let n := code c in
  if ((65 <=? n) && (n <=? 90)
      || (192 <=? n) && (n <=? 222) && negb (n =? 215))%nat
  then ascii_of_nat (n + 32) else c.

Fixpoint lower (s : string) : string :=
  match s with
  | EmptyString => EmptyString
  | String c s' => String (lower_char c) (lower s')
  end.

Fixpoint lstrip (s : string) : string :=
  match s with
  | EmptyString => EmptyString
  | String c s' => if isspace c then lstrip s' else s
  end.

Fixpoint rstrip (s : string) : string :=
  match s with
  | EmptyString => EmptyString
  | String c s' =>
      match rstrip s' with
      | EmptyString => if isspace c then EmptyString else String c EmptyString
      | r => String c r
      end
  end.

(** [str.strip()] *)
Definition strip (s : string) : string := rstrip (lstrip s).

(** Truth value of a [str]: the empty string is false. *)
Definition truthy (s : string) : bool :=
  match s with EmptyString => false | _ => true end.

(** [len(s.split())]: the number of maximal runs of non-space
    characters. *)
Fixpoint count_words (in_word : bool) (s : string) : nat :=
  match s with
  | EmptyString => O
  | String c s' =>
      if isspace c then count_words false s'
      else ((if in_word then 0 else 1) + count_words true s')%nat
  end.

Definition split_len (s : string) : Z := Z.of_nat (count_words false s).

(** Truth value of an [Optional[str]]: [None] and the empty string
    are false. *)
Definition truthy_opt (o : option string) : bool :=
  match o with Some s => truthy s | None => false end.

(** [str(n)] for an [int]. *)
Definition str_of_int (n : Z) : string := NilZero.string_of_int (Z.to_int n).

End Text.

(** ** The two compiled patterns and [Pattern.search] *)

Module Re.

(** One literal pattern character against one text character under
    [re.IGNORECASE]. *)
Definition ieqb (p c : ascii) : bool :=
  Ascii.eqb (Text.lower_char p) (Text.lower_char c).

(** Match the literal [lit] at the start of [s], ignoring case:
    the matched text and the rest. *)
Fixpoint imatch (lit s : string) : option (string * string) :=
  match lit with
  | EmptyString => Some (EmptyString, s)
  | String p lit' =>
      match s with
      | EmptyString => None
      | String c s' =>
          if ieqb p c then
            match imatch lit' s' with
            | Some (m, rest) => Some (String c m, rest)
            | None => None
            end
          else None
      end
  end.

(** Shortest text (any characters, newlines included) up to the first
    place where [close] matches: the lazy [(.*?)] under [re.DOTALL]
    followed by a literal. *)
Fixpoint lazy_until (close s : string) : option string :=
  match imatch close s with
  | Some _ => Some EmptyString
  | None =>
      match s with
      | EmptyString => None
      | String c s' =>
          match lazy_until close s' with
          | Some g => Some (String c g)
          | None => None
          end
      end
  end.

(** [Pattern.search]: the match attempt [at_start] is tried at every
    position from the left, the first success wins. *)
Fixpoint search {A : Type} (at_start : string -> option A) (s : string)
  : option A :=
  match at_start s with
  | Some g => Some g
  | None =>
      match s with
      | EmptyString => None
      | String _ s' => search at_start s'
      end
  end.

(** One alternative of [(true|false)] followed by the closing tag. *)
Definition token_then_close (tok close r : string) : option string :=
  match imatch tok r with
  | Some (g, r') =>
      match imatch close r' with
      | Some _ => Some g
      | None => None
      end
  | None => None
  end.

(** [<AGREE>(true|false)</AGREE>] at the start of [s]: group 1. *)
Definition AGREE_TAG_at (s : string) : option string :=
  match imatch "<AGREE>" s with
  | Some (_, r) =>
      match token_then_close "true" "</AGREE>" r with
      | Some g => Some g
      | None => token_then_close "false" "</AGREE>" r
      end
  | None => None
  end.

(** [<FINAL>(.*?)</FINAL>] at the start of [s]: group 1. *)
Definition FINAL_TAG_at (s : string) : option string :=
  match imatch "<FINAL>" s with
  | Some (_, r) => lazy_until "</FINAL>" r
  | None => None
  end.

End Re.

(** ** Signal extractor *)

Definition _extract_agreement (response : string) : option bool :=
  match Re.search Re.AGREE_TAG_at response with
  | Some g => Some (String.eqb (Text.lower g) "true")
  | None => None
  end.

Definition _extract_final_answer (response : string) : option string :=
  match Re.search Re.FINAL_TAG_at response with
  | Some g => Some (Text.strip g)
  | None => None
  end.

(** ** Prompt builders ([prompts.py]) *)

Module Prompts.

(** A chat message, the dict with keys [role] and [content]. *)
Record Message : Type := mkMessage { role : string; content : string }.

(** The prompt constants: the two system prompts and the few-shot
    examples (pairs [user]/[assistant] for Terrence, pairs
    [terrence]/[assistant] for Neil). *)
Record Templates : Type := mkTemplates {
  TERRENCE_SYSTEM_PROMPT : string;
  NEIL_SYSTEM_PROMPT : string;
  TERRENCE_EXAMPLES : list (string * string);
  NEIL_EXAMPLES : list (string * string)
}.

Section Builders.
Variable T : Templates.

Definition get_terrence_messages (expression : string)
    (conversation_history : list Message) : list Message :=
  let messages := [mkMessage "system" (TERRENCE_SYSTEM_PROMPT T)] in
  let messages :=
    (messages ++
     flat_map (fun example =>
                 [mkMessage "user" (fst example);
                  mkMessage "assistant" (snd example)])
              (TERRENCE_EXAMPLES T))%list in
  let messages :=
    match conversation_history with
    | [] => messages
    | _ :: _ => (messages ++ conversation_history)%list
    end in
  match conversation_history with
  | [] =>
      (messages ++ [mkMessage "user" ("Calculate: " ++ expression)])%list
  | _ :: _ => messages
  end.

Definition get_neil_messages (terrence_response : string)
    (conversation_history : list Message) : list Message :=
  let messages := [mkMessage "system" (NEIL_SYSTEM_PROMPT T)] in
  let messages :=
    (messages ++
     flat_map (fun example =>
                 [mkMessage "user" ("Terrence says: " ++ fst example);
                  mkMessage "assistant" (snd example)])
              (NEIL_EXAMPLES T))%list in
  let messages :=
    match conversation_history with
    | [] => messages
    | _ :: _ => (messages ++ conversation_history)%list
    end in
  (messages ++
   [mkMessage "user" ("Terrence says: " ++ terrence_response)])%list.

End Builders.

Definition get_terrence_final_prompt (neil_agreement : string) : string :=
  "Neil has agreed: " ++ neil_agreement ++
  ". Please provide your final answer using the format <FINAL>answer</FINAL>.".

End Prompts.

(** ** Settings ([settings.py]), the fields the orchestrator reads *)

Module Config.

Inductive PaceMode : Type := slow | medium | fast.

Record PacingProfile : Type := mkPacingProfile {
max_tokens_per_turn : Z
}.

Record Settings : Type := mkSettings {
slow_max_tokens_per_turn : Z;
medium_max_tokens_per_turn : Z;
fast_max_tokens_per_turn : Z;
max_rounds : Z
}.

Definition get_pacing_profile (settings : Settings) (pace : Config.PaceMode)
: PacingProfile :=
match pace with
| slow => mkPacingProfile (slow_max_tokens_per_turn settings)
| medium => mkPacingProfile (medium_max_tokens_per_turn settings)
| fast => mkPacingProfile (fast_max_tokens_per_turn settings)
end.

End Config.

(** ** Data model of a debate *)

Inductive DebateStatus : Type :=
  NOT_STARTED | IN_PROGRESS | COMPLETED | ERROR | TIMEOUT.

Record DebateTurn : Type := mkDebateTurn {
  speaker : string;
  content : string;
  agreement_flag : option bool;
  tokens_used : Z
}.

Record DebateResult : Type := mkDebateResult {
  status : DebateStatus;
  expression : string;
  final_answer : option string;
  rounds : Z;
  turns : list DebateTurn;
  error_message : option string;
  pace_mode : Config.PaceMode
}.

Definition status_eqb (a b : DebateStatus) : bool :=
  match a, b with
  | NOT_STARTED, NOT_STARTED | IN_PROGRESS, IN_PROGRESS
  | COMPLETED, COMPLETED | ERROR, ERROR | TIMEOUT, TIMEOUT => true
  | _, _ => false
  end.

(** ** Collaborators and the monad of the debate body *)

(** What a call yields: the value it returns, or [str(e)] of the
    exception it raises. *)
Inductive Outcome (A : Type) : Type :=
| Returned (a : A)
| Raised (e : string).
Arguments Returned {A} a.
Arguments Raised {A} e.

(** The collaborators of one orchestrator.  [_call_terrence] and
    [_call_neil] are the client calls with their retry policy, so a
    [Raised] outcome is a failure that survived the retries.  The
    other three are the pace controller's own effects: the progress
    event before a call, the padding after a call that returned, and
    the gap between turns.  The progress sink is taken not to raise. *)
Record Collaborators (World : Type) : Type := mkCollaborators {
  _call_terrence : list Prompts.Message -> Z -> World -> Outcome string * World;
  _call_neil : list Prompts.Message -> Z -> World -> Outcome string * World;
  turn_started : string -> World -> World;
  turn_padding : string -> World -> World;
  inter_turn_gap : World -> World
}.
Arguments _call_terrence {World}.
Arguments _call_neil {World}.
Arguments turn_started {World}.
Arguments turn_padding {World}.
Arguments inter_turn_gap {World}.

(** The mutable state of one run: the outside world, the
    [DebateResult] under construction and the local
    [conversation_history]. *)
Record Run (World : Type) : Type := mkRun {
  world : World;
  result : DebateResult;
  conversation_history : list Prompts.Message
}.
Arguments mkRun {World}.
Arguments world {World}.
Arguments result {World}.
Arguments conversation_history {World}.

(** State and exceptions: a raise keeps the mutations done so far. *)
Definition M (World A : Type) : Type := Run World -> Outcome A * Run World.

Definition ret {World A} (a : A) : M World A := fun st => (Returned a, st).

Definition bind {World A B} (c : M World A) (k : A -> M World B)
  : M World B :=
  fun st =>
    match c st with
    | (Returned a, st') => k a st'
    | (Raised e, st') => (Raised e, st')
    end.

Notation "x <- c ;; k" := (bind c (fun x => k))
  (at level 61, c at next level, right associativity).
Notation "c ;;; k" := (bind c (fun _ => k))
  (at level 61, right associativity).

Definition get_history {World} : M World (list Prompts.Message) :=
  fun st => (Returned (conversation_history st), st).

Definition modify_result {World} (f : DebateResult -> DebateResult)
  : M World unit :=
  fun st => (Returned tt, mkRun (world st) (f (result st)) (conversation_history st)).

Definition extend_history {World} (ms : list Prompts.Message) : M World unit :=
  fun st => (Returned tt, mkRun (world st) (result st) (conversation_history st ++ ms)%list).

Definition on_world {World} (f : World -> World) : M World unit :=
  fun st => (Returned tt, mkRun (f (world st)) (result st) (conversation_history st)).

Definition call {World} (f : World -> Outcome string * World) : M World string :=
  fun st =>
    let (o, w) := f (world st) in
    (o, mkRun w (result st) (conversation_history st)).

(** Field assignments on the result object. *)
Definition set_rounds (n : Z) (r : DebateResult) : DebateResult :=
  mkDebateResult (status r) (expression r) (final_answer r) n (turns r)
                 (error_message r) (pace_mode r).
Definition set_status (s : DebateStatus) (r : DebateResult) : DebateResult :=
  mkDebateResult s (expression r) (final_answer r) (rounds r) (turns r)
                 (error_message r) (pace_mode r).
Definition set_final_answer (a : option string) (r : DebateResult)
  : DebateResult :=
  mkDebateResult (status r) (expression r) a (rounds r) (turns r)
                 (error_message r) (pace_mode r).
Definition set_error_message (m : string) (r : DebateResult) : DebateResult :=
  mkDebateResult (status r) (expression r) (final_answer r) (rounds r) (turns r)
                 (Some m) (pace_mode r).
Definition append_turn (t : DebateTurn) (r : DebateResult) : DebateResult :=
  mkDebateResult (status r) (expression r) (final_answer r) (rounds r)
                 (turns r ++ [t])%list (error_message r) (pace_mode r).

Definition get_result {World} : M World DebateResult :=
  fun st => (Returned (result st), st).

(** How one pass through the body of the [for] loop ends. *)
Inductive LoopCtl : Type := Continue | Break.

(** [for round_num in range(...)] with [break]. *)
Fixpoint for_rounds {World} (body : Z -> M World LoopCtl) (rs : list Z)
  : M World unit :=
  match rs with
  | [] => ret tt
  | round_num :: rs' =>
      c <- body round_num ;;
      match c with
      | Break => ret tt
      | Continue => for_rounds body rs'
      end
  end.

(** [range(n)]: empty when [n <= 0]. *)
Definition range (n : Z) : list Z := map Z.of_nat (seq 0 (Z.to_nat n)).

(** ** The orchestrator *)

Section DebateOrchestrator.
Context {World : Type}.
Variable env : Collaborators World.
Variable T : Prompts.Templates.
Variable settings : Config.Settings.

(** [PaceController.execute_turn]: an exception of the model call is
    re-raised before any padding. *)
Definition execute_turn (model_call : World -> Outcome string * World)
    (speaker_name : string) : M World string :=
  on_world (turn_started env speaker_name) ;;;
  response <- call model_call ;;
  on_world (turn_padding env speaker_name) ;;;
  ret response.

Definition gap : M World unit := on_world (inter_turn_gap env).

Section Round.
Variable expression : string.
Variable max_rounds : Z.
Variable pacing_profile : Config.PacingProfile.
Variable round_num : Z.

(** The branch [if agreement is True:] of the loop body: the
    finalization turn, then [break]. *)
Definition finalization (terrence_messages : list Prompts.Message)
    (neil_response : string) : M World LoopCtl :=
  gap ;;;
  let final_prompt := Prompts.get_terrence_final_prompt neil_response in
  let final_messages :=
    (terrence_messages ++ [Prompts.mkMessage "user" final_prompt])%list in
  final_response <-
    execute_turn (_call_terrence env final_messages
                                 (Config.max_tokens_per_turn pacing_profile))
                 "Terrence" ;;
  let final_turn :=
    mkDebateTurn "Terrence" final_response None
                 (Text.split_len final_response) in
  modify_result (append_turn final_turn) ;;;
  let final_answer := _extract_final_answer final_response in
  if Text.truthy_opt final_answer then
    modify_result (set_final_answer final_answer) ;;;
    modify_result (set_status COMPLETED) ;;;
    ret Break
  else
    modify_result (set_status ERROR) ;;;
    modify_result (set_error_message
      "Terrence failed to provide final answer after agreement") ;;;
    ret Break.

(** The loop body from the first inter-turn gap on: Neil's turn
    and what follows it. *)
Definition critic_part (terrence_messages : list Prompts.Message)
    (terrence_response : string) : M World LoopCtl :=
  gap ;;;
  history <- get_history ;;
  let neil_messages :=
    Prompts.get_neil_messages T terrence_response (removelast history) in
  neil_response <-
    execute_turn (_call_neil env neil_messages
                             (Config.max_tokens_per_turn pacing_profile))
                 "Neil" ;;
  let agreement := _extract_agreement neil_response in
  let neil_turn :=
    mkDebateTurn "Neil" neil_response agreement
                 (Text.split_len neil_response) in
  modify_result (append_turn neil_turn) ;;;
  extend_history
    [Prompts.mkMessage "user" ("Neil says: " ++ neil_response)] ;;;
  match agreement with
  | Some true => finalization terrence_messages neil_response
  | _ =>
      (if round_num <? max_rounds - 1 then gap else ret tt) ;;;
      ret Continue
  end.

(** The body of the round loop of [debate] (and of [debate_sync]). *)
Definition round : M World LoopCtl :=
  modify_result (set_rounds (round_num + 1)) ;;;
  history <- get_history ;;
  let terrence_messages :=
    Prompts.get_terrence_messages T expression history in
  terrence_response <-
    execute_turn (_call_terrence env terrence_messages
                                 (Config.max_tokens_per_turn pacing_profile))
                 "Terrence" ;;
  let terrence_turn :=
    mkDebateTurn "Terrence" terrence_response None
                 (Text.split_len terrence_response) in
  modify_result (append_turn terrence_turn) ;;;
  extend_history [Prompts.mkMessage "assistant" terrence_response] ;;;
  let final_answer := _extract_final_answer terrence_response in
  if Text.truthy_opt final_answer then
    modify_result (set_final_answer final_answer) ;;;
    modify_result (set_status COMPLETED) ;;;
    ret Break
  else critic_part terrence_messages terrence_response.

End Round.

(** The [try] block: the round loop, then the check for an exhausted
    round budget. *)
Definition debate_try (expression : string) (max_rounds : Z)
    (pacing_profile : Config.PacingProfile) : M World unit :=
  for_rounds (round expression max_rounds pacing_profile)
             (range max_rounds) ;;;
  r <- get_result ;;
  if status_eqb (status r) IN_PROGRESS then
    modify_result (set_status TIMEOUT) ;;;
    modify_result (set_error_message
      ("Debate did not reach agreement within "
         ++ Text.str_of_int max_rounds ++ " rounds"))
  else ret tt.

(** [debate], with the world it leaves behind.  [max_rounds = None]
    is the default argument. *)
Definition debate_run (expression : string) (max_rounds : option Z)
    (pace : Config.PaceMode) (w : World) : Run World :=
  let max_rounds :=
    match max_rounds with
    | None => Config.max_rounds settings
    | Some n => n
    end in
  let pacing_profile := Config.get_pacing_profile settings pace in
  let result0 := mkDebateResult IN_PROGRESS expression None 0 [] None pace in
  match debate_try expression max_rounds pacing_profile
                   (mkRun w result0 []) with
  | (Returned _, st) => st
  | (Raised e, st) =>
      mkRun (world st)
            (set_error_message e (set_status ERROR (result st)))
            (conversation_history st)
  end.

Definition debate (expression : string) (max_rounds : option Z)
    (pace : Config.PaceMode) (w : World) : DebateResult :=
  result (debate_run expression max_rounds pace w).

End DebateOrchestrator.

(** [debate_sync] is the same protocol, statement for statement, run
    over the blocking pace controller and the clients called without
    the retry wrapper: the same function at other collaborators. *)
Definition debate_sync {World : Type} (sync_env : Collaborators World)
    (T : Prompts.Templates) (settings : Config.Settings)
    (expression : string) (max_rounds : option Z) (pace : Config.PaceMode)
    (w : World) : DebateResult :=
  debate sync_env T settings expression max_rounds pace w.

(** ** Scripted collaborators

    Clients that replay a fixed list of outcomes each, whatever the
    messages, as the mocks of [tests/test_protocol.py] do; a client
    whose script is used up raises.  Pacing leaves this world alone. *)

Module Scripted.

Record World : Type := mkWorld {
  terrence_script : list (Outcome string);
  neil_script : list (Outcome string)
}.

Definition next (script : list (Outcome string))
  : Outcome string * list (Outcome string) :=
  match script with
  | [] => (Raised "", [])
  | o :: script' => (o, script')
  end.

Definition env : Collaborators World :=
  mkCollaborators World
    (fun _ _ w =>
       let (o, l) := next (terrence_script w) in
       (o, mkWorld l (neil_script w)))
    (fun _ _ w =>
       let (o, l) := next (neil_script w) in
       (o, mkWorld (terrence_script w) l))
    (fun _ w => w)
    (fun _ w => w)
    (fun w => w).

(** The defaults of [settings.py]. *)
Definition settings : Config.Settings := Config.mkSettings 350 300 250 12.

(** Prompt constants for the scripted runs (the scripted clients do
    not read their messages). *)
Definition templates : Prompts.Templates :=
  Prompts.mkTemplates "You are Terrence." "You are Neil." [] [].

Definition run (w : World) (expression : string) (max_rounds : option Z)
  : DebateResult :=
  debate env templates settings expression max_rounds Config.slow w.

(** The runs used as examples below. *)

(** Neil agrees in the first round; Terrence then answers
    [final_response]. *)
Definition agreed_world (final_response : string) : World :=
  mkWorld [Returned "I calculate 2 + 3 = 5"; Returned final_response]
          [Returned "<AGREE>true</AGREE> Correct."].

Definition agreed_then (final_response : string) : DebateResult :=
  run (agreed_world final_response) "2 + 3" (Some 2).

(** Neil never agrees, two rounds. *)
Definition never_agrees_world : World :=
  mkWorld [Returned "I calculate 2 + 3 = 5"; Returned "I calculate 2 + 3 = 5"]
          [Returned "<AGREE>false</AGREE> I still disagree.";
           Returned "<AGREE>false</AGREE> I still disagree."].

(** Two refusals, then agreement in round 3 and a tagged answer. *)
Definition three_rounds : DebateResult :=
  run (mkWorld
         [Returned "I need to calculate 2 + 3 = 5";
          Returned "2 + 3 means adding 2 and 3, which equals 5";
          Returned "Counting on from 2 by 3 gives 5";
          Returned "<FINAL>5</FINAL>"]
         [Returned "<AGREE>false</AGREE> Can you show the steps?";
          Returned "<AGREE>false</AGREE> I am not convinced yet.";
          Returned "<AGREE>true</AGREE> Yes, that is correct."])
      "2 + 3" (Some 5).

(** Terrence opens with an empty finalization tag. *)
Definition empty_tag_first : DebateResult :=
  run (mkWorld [Returned "<FINAL></FINAL>"]
               [Returned "<AGREE>false</AGREE> That is no answer."])
      "2 + 3" (Some 1).

(** Terrence opens with a tagged answer. *)
Definition answer_first_world : World :=
  mkWorld [Returned "The answer is <FINAL>5</FINAL>"] [].

Definition answer_first : DebateResult :=
  run answer_first_world "2 + 3" (Some 2).

(** A negative round budget. *)
Definition negative_budget : DebateResult :=
  run (mkWorld [] []) "2 + 3" (Some (-1)).

End Scripted.

(** ** The signal extractor as the specification words it

    Independent of the matcher above: a tag is described by how the
    text splits around it. *)

Module Spec.

(** Two texts are equal up to letter case. *)
Definition ci_eq (a b : string) : Prop := Text.lower a = Text.lower b.

(** [t] is an agreement tag wrapping the token [tok]. *)
Definition agreement_tag (tok t : string) : Prop :=
  exists o g c,
    t = o ++ g ++ c /\
    ci_eq o "<AGREE>" /\ ci_eq g tok /\ ci_eq c "</AGREE>".

(** The literal token that stands for a flag. *)
Definition token_of (b : bool) : string := if b then "true" else "false".

(** An agreement tag wrapping the literal [true] or [false]. *)
Definition any_agreement_tag (t : string) : Prop :=
  agreement_tag "true" t \/ agreement_tag "false" t.

(** [t] is a finalization tag with content [inner]. *)
Definition final_tag (inner t : string) : Prop :=
  exists o c,
    t = o ++ inner ++ c /\ ci_eq o "<FINAL>" /\ ci_eq c "</FINAL>".

Definition any_final_tag (t : string) : Prop :=
  exists inner, final_tag inner t.

(** A text with property [P] starts at offset [n] of [text]. *)
Definition occurs_at (P : string -> Prop) (n : nat) (text : string)
  : Prop :=
  exists pre t post,
    text = pre ++ t ++ post /\ String.length pre = n /\ P t.

(** Offset [n] is where the first text with property [P] starts. *)
Definition first_at (P : string -> Prop) (n : nat) (text : string)
  : Prop :=
  occurs_at P n text /\ forall m, occurs_at P m text -> (n <= m)%nat.

Fixpoint all_space (s : string) : Prop :=
  match s with
  | EmptyString => True
  | String c s' => Text.isspace c = true /\ all_space s'
  end.

(** [a] neither starts nor ends with white space. *)
Definition tight (a : string) : Prop :=
  (forall c a', a = String c a' -> Text.isspace c = false) /\
  (forall a' c, a = a' ++ String c EmptyString -> Text.isspace c = false).

(** [a] is [s] with the white space at both ends removed. *)
Definition trimmed (s a : string) : Prop :=
  exists l r, s = l ++ a ++ r /\ all_space l /\ all_space r /\ tight a.

End Spec.

(** ** The shape of a run

    A run is a number of rounds in which Terrence gave no final answer
    and Neil did not agree, followed by the way the loop ended. *)

Definition solver_turn (s : string) : DebateTurn :=
  mkDebateTurn "Terrence" s None (Text.split_len s).

Definition critic_turn (n : string) : DebateTurn :=
  mkDebateTurn "Neil" n (_extract_agreement n) (Text.split_len n).

(** A round that goes on to the next: the responses of Terrence and
    of Neil. *)
Definition Exchange : Type := (string * string)%type.

Definition undecided (x : Exchange) : Prop :=
  Text.truthy_opt (_extract_final_answer (fst x)) = false /\
  _extract_agreement (snd x) <> Some true.

Definition exchange_turns (x : Exchange) : list DebateTurn :=
  [solver_turn (fst x); critic_turn (snd x)].

(** How the loop ended: all rounds used up, or in its last round a
    call that raised [e], a final answer in Terrence's response [s]
    before agreement, or the finalization response [f] after Neil's
    agreeing response [n]. *)
Inductive Ending : Type :=
| Exhausted
| SolverFailed (e : string)
| EarlyFinal (s : string)
| CriticFailed (s e : string)
| FinalizationFailed (s n e : string)
| Finalized (s n f : string).

Definition ending_turns (x : Ending) : list DebateTurn :=
  match x with
  | Exhausted | SolverFailed _ => []
  | EarlyFinal s | CriticFailed s _ => [solver_turn s]
  | FinalizationFailed s n _ => [solver_turn s; critic_turn n]
  | Finalized s n f => [solver_turn s; critic_turn n; solver_turn f]
  end.

Definition ending_ok (x : Ending) : Prop :=
  match x with
  | Exhausted | SolverFailed _ => True
  | EarlyFinal s => Text.truthy_opt (_extract_final_answer s) = true
  | CriticFailed s _ => Text.truthy_opt (_extract_final_answer s) = false
  | FinalizationFailed s n _ | Finalized s n _ =>
      Text.truthy_opt (_extract_final_answer s) = false /\
      _extract_agreement n = Some true
  end.

Definition failed_to_finalize : string :=
  "Terrence failed to provide final answer after agreement".

Definition budget_message (max_rounds : Z) : string :=
  "Debate did not reach agreement within "
    ++ Text.str_of_int max_rounds ++ " rounds".

Definition ending_status (x : Ending) : DebateStatus :=
  match x with
  | Exhausted => TIMEOUT
  | SolverFailed _ | CriticFailed _ _ | FinalizationFailed _ _ _ => ERROR
  | EarlyFinal _ => COMPLETED
  | Finalized _ _ f =>
      if Text.truthy_opt (_extract_final_answer f) then COMPLETED else ERROR
  end.

Definition ending_answer (x : Ending) : option string :=
  match x with
  | EarlyFinal s => _extract_final_answer s
  | Finalized _ _ f =>
      if Text.truthy_opt (_extract_final_answer f)
      then _extract_final_answer f else None
  | _ => None
  end.

Definition ending_message (max_rounds : Z) (x : Ending) : option string :=
  match x with
  | Exhausted => Some (budget_message max_rounds)
  | SolverFailed e | CriticFailed _ e | FinalizationFailed _ _ e => Some e
  | EarlyFinal _ => None
  | Finalized _ _ f =>
      if Text.truthy_opt (_extract_final_answer f)
      then None else Some failed_to_finalize
  end.

Definition ending_rounds (x : Ending) : Z :=
  match x with Exhausted => 0 | _ => 1 end.

(** The rounds a run of [k] undecided rounds may end with [x] under a
    budget of [max_rounds]. *)
Definition within_budget (max_rounds : Z) (k : nat) (x : Ending) : Prop :=
  match x with
  | Exhausted => k = Z.to_nat max_rounds
  | _ => (k < Z.to_nat max_rounds)%nat
  end.

(** The result of the run with undecided rounds [xs] and ending [x]. *)
Definition outcome_of (expression : string) (pace : Config.PaceMode)
    (max_rounds : Z) (xs : list Exchange) (x : Ending) : DebateResult :=
  mkDebateResult (ending_status x) expression (ending_answer x)
                 (Z.of_nat (List.length xs) + ending_rounds x)
                 (flat_map exchange_turns xs ++ ending_turns x)%list
                 (ending_message max_rounds x) pace.

(** What the last pass through the loop body hands to the loop, and
    what it has done to the result object by then. *)
Definition ending_ctl (x : Ending) : Outcome LoopCtl :=
  match x with
  | SolverFailed e | CriticFailed _ e | FinalizationFailed _ _ e => Raised e
  | _ => Returned Break
  end.

(** The result object after the finalization response [f]. *)
Definition finalized (f : string) (r : DebateResult) : DebateResult :=
  let r' := append_turn (solver_turn f) r in
  if Text.truthy_opt (_extract_final_answer f) then
    set_status COMPLETED (set_final_answer (_extract_final_answer f) r')
  else set_error_message failed_to_finalize (set_status ERROR r').

Definition ending_apply (x : Ending) (r : DebateResult) : DebateResult :=
  match x with
  | Exhausted | SolverFailed _ => r
  | EarlyFinal s =>
      set_status COMPLETED
        (set_final_answer (_extract_final_answer s)
           (append_turn (solver_turn s) r))
  | CriticFailed s _ => append_turn (solver_turn s) r
  | FinalizationFailed s n _ =>
      append_turn (critic_turn n) (append_turn (solver_turn s) r)
  | Finalized s n f =>
      finalized f (append_turn (critic_turn n) (append_turn (solver_turn s) r))
  end.

(** What the loop hands on when its last pass ended with [x]. *)
Definition loop_exit (x : Ending) : Outcome unit :=
  match ending_ctl x with
  | Returned _ => Returned tt
  | Raised e => Raised e
  end.

(** The result object at the head of the loop after the undecided
    rounds [xs]. *)
Definition in_progress (expression : string) (pace : Config.PaceMode)
    (xs : list Exchange) : DebateResult :=
  mkDebateResult IN_PROGRESS expression None (Z.of_nat (List.length xs))
                 (flat_map exchange_turns xs) None pace.

(** [max_rounds] after the default argument is resolved. *)
Definition effective_rounds (settings : Config.Settings)
    (max_rounds : option Z) : Z :=
  match max_rounds with
  | None => Config.max_rounds settings
  | Some n => n
  end.

(** Every pass through the loop body ends with [Continue]: no call
    raises and no round breaks out of the loop. *)
Fixpoint all_continue {World} (body : Z -> M World LoopCtl) (rs : list Z)
    (st : Run World) : bool :=
  match rs with
  | [] => true
  | round_num :: rs' =>
      match body round_num st with
      | (Returned Continue, st') => all_continue body rs' st'
      | _ => false
      end
  end.

(** All [max_rounds] rounds of the debate complete and none of them
    reaches a terminal status. *)
Definition rounds_exhausted {World} (env : Collaborators World)
    (T : Prompts.Templates) (settings : Config.Settings)
    (expression : string) (max_rounds : option Z) (pace : Config.PaceMode)
    (w : World) : bool :=
  let n := effective_rounds settings max_rounds in
  all_continue (round env T expression n
                      (Config.get_pacing_profile settings pace))
               (range n)
               (mkRun w (mkDebateResult IN_PROGRESS expression None 0 []
                                        None pace) []).

(** ** The calls behind a finalization *)

(** The message a recorded turn adds to [conversation_history]. *)
Definition turn_message (t : DebateTurn) : Prompts.Message :=
  if String.eqb (speaker t) "Terrence"
  then Prompts.mkMessage "assistant" (content t)
  else Prompts.mkMessage "user" ("Neil says: " ++ content t).

(** The responses of the last round when it came to the finalization
    call, and the outcome of that call. *)
Definition finalization_outcome (x : Ending)
  : option (string * string * Outcome string) :=
  match x with
  | FinalizationFailed s n e => Some (s, n, Raised e)
  | Finalized s n f => Some (s, n, Returned f)
  | _ => None
  end.

(** The calls behind an ending with a finalization call, in a round
    entered with [history]: Neil's call returned the agreeing
    response; after its padding, the gap and the progress event
    Terrence was called on [final_messages]; and [w_end] is the world
    that call left, padded when it returned. *)
Definition final_call {World : Type} (env : Collaborators World)
    (T : Prompts.Templates) (expression : string) (max_tokens : Z)
    (history : list Prompts.Message) (x : Ending) (w_end : World) : Prop :=
  match finalization_outcome x with
  | None => True
  | Some (s, n, o) =>
      exists w0 wn w',
        _call_neil env (Prompts.get_neil_messages T s history) max_tokens w0
          = (Returned n, wn) /\
        _call_terrence env
          (Prompts.get_terrence_messages T expression history
             ++ [Prompts.mkMessage "user"
                   (Prompts.get_terrence_final_prompt n)])%list
          max_tokens
          (turn_started env "Terrence"
             (inter_turn_gap env (turn_padding env "Neil" wn)))
          = (o, w') /\
        w_end = match o with
                | Returned _ => turn_padding env "Terrence" w'
                | Raised _ => w'
                end
  end.

(** ** Counting collaborators

    Any collaborators, with a count of the client calls made so far
    (what [call_count] is on the mocks of the tests). *)

Module Counted.

Record World (W : Type) : Type := mkWorld {
  inner : W;
  terrence_calls : nat;
  neil_calls : nat
}.
Arguments mkWorld {W}.
Arguments inner {W}.
Arguments terrence_calls {W}.
Arguments neil_calls {W}.

Definition env {W : Type} (e : Collaborators W) : Collaborators (World W) :=
  mkCollaborators (World W)
    (fun messages max_tokens c =>
       let (o, w') := _call_terrence e messages max_tokens (inner c) in
       (o, mkWorld w' (S (terrence_calls c)) (neil_calls c)))
    (fun messages max_tokens c =>
       let (o, w') := _call_neil e messages max_tokens (inner c) in
       (o, mkWorld w' (terrence_calls c) (S (neil_calls c))))
    (fun speaker_name c =>
       mkWorld (turn_started e speaker_name (inner c))
               (terrence_calls c) (neil_calls c))
    (fun speaker_name c =>
       mkWorld (turn_padding e speaker_name (inner c))
               (terrence_calls c) (neil_calls c))
    (fun c =>
       mkWorld (inter_turn_gap e (inner c))
               (terrence_calls c) (neil_calls c)).

Definition start {W : Type} (w : W) : World W := mkWorld w 0 0.

End Counted.

(** A run over counting collaborators, the counts forgotten. *)
Definition uncounted {W : Type} (st : Run (Counted.World W)) : Run W :=
  mkRun (Counted.inner (world st)) (result st) (conversation_history st).

(** The books of a run: the calls made against the turns recorded and
    the rounds begun, [bound] being the number of rounds allowed. *)
Definition balanced {W : Type} (bound : nat) (st : Run (Counted.World W))
  : Prop :=
  (Counted.neil_calls (world st) <= Counted.terrence_calls (world st)
     <= Counted.neil_calls (world st) + 1)%nat /\
  (List.length (turns (result st))
     <= Counted.terrence_calls (world st) + Counted.neil_calls (world st)
     <= List.length (turns (result st)) + 1)%nat /\
  (Counted.terrence_calls (world st)
     <= Z.to_nat (rounds (result st)) + 1)%nat /\
  (Counted.neil_calls (world st) <= Z.to_nat (rounds (result st)))%nat /\
  (Z.to_nat (rounds (result st)) <= bound)%nat.

(** ** Texts without tags *)

(** No character of [s] is the opening angle bracket. *)
Fixpoint no_open_angle (s : string) : bool :=
  match s with
  | EmptyString => true
  | String c s' => negb (Ascii.eqb c "<") && no_open_angle s'
  end.

(** ** The request to the Anthropic client *)

(** The conversion loop of [_call_neil] (and of [neil_call] in
    [debate_sync]): the content of a system message becomes the
    system prompt, any other message is appended, role and content,
    to the conversation. *)
Definition split_system (messages : list Prompts.Message)
  : option string * list Prompts.Message :=
  fold_left
    (fun (acc : option string * list Prompts.Message) msg =>
       let (system_message, conversation_messages) := acc in
       if String.eqb (Prompts.role msg) "system"
       then (Some (Prompts.content msg), conversation_messages)
       else (system_message,
             (conversation_messages
                ++ [Prompts.mkMessage (Prompts.role msg)
                                      (Prompts.content msg)])%list))
    messages (None, []).

Definition is_system (msg : Prompts.Message) : bool :=
  String.eqb (Prompts.role msg) "system".

(** ** The typing effect ([pace_controller.py]) *)

(** What [typeout_effect] does, in order: a chunk handed to the output
    callback, or a sleep of [char_delay * chars] seconds. *)
Inductive TypeEvent : Type :=
| Emit (chunk : string)
| Pause (chars : nat).

(** The number of chunks of [d] characters that cover [n]
    characters. *)
Definition chunk_count (n d : nat) : nat := ((n + d - 1) / d)%nat.

(** [range(0, stop, step)] as a list; a zero step raises. *)
Definition range_step (stop : nat) (step : Z) : Outcome (list nat) :=
  if (step =? 0)%Z then Raised "range() arg 3 must not be zero"
  else if (step <? 0)%Z then Returned []
  else
    let d := Z.to_nat step in
    Returned (map (fun k => (k * d)%nat) (seq 0 (chunk_count stop d))).

(** One pass through the loop body at index [i]. *)
Definition typeout_step (text : string) (chunk_size : Z) (i : nat)
  : list TypeEvent :=
  let chunk := substring i (Z.to_nat chunk_size) text in
  Emit chunk
  :: (if (Z.of_nat i + chunk_size <? Z.of_nat (String.length text))%Z
      then [Pause (String.length chunk)] else []).

(** [PaceController.typeout_effect], for a typing rate that is not
    zero. *)
Definition typeout_effect (text : string) (chunk_size : Z)
  : Outcome (list TypeEvent) :=
  if negb (Text.truthy text) then Returned []
  else
    match range_step (String.length text) chunk_size with
    | Raised e => Raised e
    | Returned indices =>
        Returned (flat_map (typeout_step text chunk_size) indices)
    end.

Fixpoint emitted (events : list TypeEvent) : list string :=
  match events with
  | [] => []
  | Emit chunk :: events' => chunk :: emitted events'
  | Pause _ :: events' => emitted events'
  end.

Fixpoint paused (events : list TypeEvent) : list nat :=
  match events with
  | [] => []
  | Emit _ :: events' => paused events'
  | Pause chars :: events' => chars :: paused events'
  end.

Definition join (chunks : list string) : string :=
  fold_right append "" chunks.

(** The chunks handed to the output callback one after the other,
    with a sleep of [char_delay * len(chunk)] after each but the
    last. *)
Fixpoint with_pauses (chunks : list string) : list TypeEvent :=
  match chunks with
  | [] => []
  | chunk :: rest =>
      match rest with
      | [] => [Emit chunk]
      | _ :: _ => Emit chunk :: Pause (String.length chunk) :: with_pauses rest
      end
  end.

(** ** Tactics *)

(** One step of symbolic execution of the debate body. *)
Ltac run_body :=
  cbv beta iota zeta delta
    [round critic_part finalization execute_turn gap bind call
     on_world modify_result get_history get_result extend_history ret];
  cbn -[append Prompts.get_terrence_messages Prompts.get_neil_messages
        Prompts.get_terrence_final_prompt Text.split_len
        _extract_final_answer _extract_agreement Z.ltb Z.add Z.sub Z.of_nat].

(** * Proofs *)

(** ** Texts *)

Section TextFacts.

Lemma app_nil_right (s : string) : s ++ "" = s.
Proof. induction s as [|c s IH]; cbn; [|rewrite IH]; reflexivity. Qed.

Lemma app_assoc3 (a b c : string) : (a ++ b) ++ c = a ++ b ++ c.
Proof. induction a as [|x a IH]; cbn; [|rewrite IH]; reflexivity. Qed.

Lemma len_app (a b : string) :
  String.length (a ++ b) = (String.length a + String.length b)%nat.
Proof. induction a as [|x a IH]; cbn; [|rewrite IH]; reflexivity. Qed.

Lemma lower_app (a b : string) :
  Text.lower (a ++ b) = Text.lower a ++ Text.lower b.
Proof. induction a as [|x a IH]; cbn; [|rewrite IH]; reflexivity. Qed.

Lemma len_lower (a : string) :
  String.length (Text.lower a) = String.length a.
Proof. induction a as [|x a IH]; cbn; [|rewrite IH]; reflexivity. Qed.

Lemma ci_eq_len (a b : string) :
  Spec.ci_eq a b -> String.length a = String.length b.
Proof.
  unfold Spec.ci_eq; intro H.
  rewrite <- (len_lower a), <- (len_lower b), H; reflexivity.
Qed.

(** Two splits of one text at the same offset are the same split. *)
Lemma split_unique (a b a' b' : string) :
  a ++ b = a' ++ b' -> String.length a = String.length a' ->
  a = a' /\ b = b'.
Proof.
  revert a'; induction a as [|x a IH]; intros [|y a'] E L; cbn in *;
    try discriminate; auto.
  injection E as -> E. injection L as L.
  destruct (IH _ E L) as [-> ->]; auto.
Qed.

Lemma ieqb_iff (p c : ascii) :
  Re.ieqb p c = true <-> Text.lower_char c = Text.lower_char p.
Proof.
  unfold Re.ieqb; rewrite Ascii.eqb_eq; split; intro H; symmetry; exact H.
Qed.

(** [imatch] finds exactly the prefixes equal to the literal up to
    case. *)
Lemma imatch_Some (lit s m rest : string) :
  Re.imatch lit s = Some (m, rest) <->
  s = m ++ rest /\ Spec.ci_eq m lit.
Proof.
  unfold Spec.ci_eq.
  revert s m rest; induction lit as [|p lit IH]; intros s m rest; cbn.
  - split.
    + intros [= <- <-]; auto.
    + intros [-> H]; destruct m; [reflexivity | discriminate].
  - destruct s as [|c s].
    + split; [discriminate|].
      intros [E H]; destruct m; cbn in *; discriminate.
    + destruct (Re.ieqb p c) eqn:Hpc.
      * apply ieqb_iff in Hpc.
        destruct (Re.imatch lit s) as [[m' rest']|] eqn:Hm.
        -- apply IH in Hm; destruct Hm as [-> Hl]. split.
           ++ intros [= <- <-]; cbn; rewrite Hl, Hpc; auto.
           ++ intros [E H]; destruct m as [|c0 m]; [discriminate|].
              cbn in E, H. injection E as <- E. injection H as _ H.
              assert (Hx : Re.imatch lit (m' ++ rest') = Some (m, rest))
                by (apply IH; auto).
              assert (Hy : Re.imatch lit (m' ++ rest') = Some (m', rest'))
                by (apply IH; auto).
              rewrite Hx in Hy; injection Hy as -> ->; reflexivity.
        -- split; [discriminate|].
           intros [E H]; destruct m as [|c0 m]; [discriminate|].
           cbn in E, H. injection E as <- E. injection H as _ H.
           assert (Hx : Re.imatch lit s = Some (m, rest)) by (apply IH; auto).
           rewrite Hx in Hm; discriminate.
      * split; [discriminate|].
        intros [E H]; destruct m as [|c0 m]; [discriminate|].
        cbn in E, H. injection E as <- E. injection H as H _.
        apply ieqb_iff in H. rewrite H in Hpc; discriminate.
Qed.

Lemma imatch_None (lit s : string) :
  Re.imatch lit s = None <->
  forall m rest, s = m ++ rest -> ~ Spec.ci_eq m lit.
Proof.
  split.
  - intros H m rest E C.
    assert (X : Re.imatch lit s = Some (m, rest)) by (apply imatch_Some; auto).
    rewrite X in H; discriminate.
  - intro H. destruct (Re.imatch lit s) as [[m rest]|] eqn:E; [|reflexivity].
    apply imatch_Some in E; destruct E as [E C]. destruct (H _ _ E C).
Qed.

(** [search] returns the attempt at the leftmost offset where the
    attempt succeeds. *)
Lemma search_Some {A} (f : string -> option A) (s : string) (g : A) :
  Re.search f s = Some g <->
  exists pre post,
    s = pre ++ post /\ f post = Some g /\
    forall pre' post', s = pre' ++ post' ->
      (String.length pre' < String.length pre)%nat -> f post' = None.
Proof.
  revert g; induction s as [|c s IH]; intro g; cbn.
  - destruct (f "") eqn:E.
    + split.
      * intros [= ->]. exists "", ""; cbn; repeat split; auto.
        intros ? ? _ L; inversion L.
      * intros (pre & post & Es & Ef & _).
        destruct pre; [|discriminate]. cbn in Es; subst post.
        rewrite E in Ef; exact Ef.
    + split; [discriminate|].
      intros (pre & post & Es & Ef & _).
      destruct pre; [|discriminate]. cbn in Es; subst post.
      rewrite E in Ef; discriminate.
  - destruct (f (String c s)) eqn:E.
    + split.
      * intros [= ->]. exists "", (String c s); cbn; repeat split; auto.
        intros ? ? _ L; inversion L.
      * intros (pre & post & Es & Ef & Hmin).
        destruct pre as [|x pre].
        -- cbn in Es; subst post. rewrite E in Ef; exact Ef.
        -- rewrite (Hmin "" (String c s)) in E; [discriminate|reflexivity|cbn; lia].
    + rewrite IH. split.
      * intros (pre & post & Es & Ef & Hmin).
        exists (String c pre), post; cbn; subst s; repeat split; auto.
        intros [|y pre'] post' E' L.
        -- cbn in E'; subst post'; exact E.
        -- cbn in E', L. injection E' as -> E'.
           apply (Hmin pre' post' E'); lia.
      * intros (pre & post & Es & Ef & Hmin).
        destruct pre as [|x pre].
        -- cbn in Es; subst post. rewrite E in Ef; discriminate.
        -- cbn in Es. injection Es as -> Es.
           exists pre, post; repeat split; auto.
           intros pre' post' E' L.
           apply (Hmin (String x pre') post'); cbn; [rewrite E'; reflexivity | lia].
Qed.

Lemma search_None {A} (f : string -> option A) (s : string) :
  Re.search f s = None <->
  forall pre post, s = pre ++ post -> f post = None.
Proof.
  induction s as [|c s IH]; cbn.
  - destruct (f "") eqn:E; split; try discriminate; auto.
    + intro H; rewrite (H "" "") in E; [discriminate|reflexivity].
    + intros _ [|x pre] post Es; [cbn in Es; subst; exact E | discriminate].
  - destruct (f (String c s)) eqn:E.
    + split; [discriminate|].
      intro H; rewrite (H "" (String c s)) in E; [discriminate|reflexivity].
    + rewrite IH; split.
      * intros H [|x pre] post Es; [cbn in Es; subst; exact E|].
        cbn in Es; injection Es as -> Es; eauto.
      * intros H pre post Es. apply (H (String c pre) post); cbn; rewrite Es; reflexivity.
Qed.

End TextFacts.

(** ** The agreement flag *)

Section AgreementFacts.

Lemma token_then_close_Some (tok close r g : string) :
  Re.token_then_close tok close r = Some g <->
  exists c rest, r = g ++ c ++ rest /\ Spec.ci_eq g tok /\ Spec.ci_eq c close.
Proof.
  unfold Re.token_then_close. split.
  - destruct (Re.imatch tok r) as [[g' r']|] eqn:E1; [|discriminate].
    destruct (Re.imatch close r') as [[c rest]|] eqn:E2; [|discriminate].
    intros [= ->].
    apply imatch_Some in E1; destruct E1 as [-> Hg].
    apply imatch_Some in E2; destruct E2 as [-> Hc].
    exists c, rest; auto.
  - intros (c & rest & -> & Hg & Hc).
    assert (E1 : Re.imatch tok (g ++ c ++ rest) = Some (g, c ++ rest))
      by (apply imatch_Some; auto).
    assert (E2 : Re.imatch close (c ++ rest) = Some (c, rest))
      by (apply imatch_Some; auto).
    rewrite E1, E2; reflexivity.
Qed.

(** A text that reads [false] up to case does not start with a
    text that reads [true] up to case. *)
Lemma false_is_not_true (g rest : string) :
  Spec.ci_eq g "false" -> Re.imatch "true" (g ++ rest) = None.
Proof.
  unfold Spec.ci_eq; intro H.
  destruct g as [|x g]; [discriminate|].
  cbn in H; injection H as Hx _.
  cbn [append Re.imatch]. unfold Re.ieqb. rewrite Hx. reflexivity.
Qed.

Lemma lower_true (g : string) :
  Spec.ci_eq g "true" -> String.eqb (Text.lower g) "true" = true.
Proof. unfold Spec.ci_eq; intros ->; reflexivity. Qed.

Lemma lower_false (g : string) :
  Spec.ci_eq g "false" -> String.eqb (Text.lower g) "true" = false.
Proof. unfold Spec.ci_eq; intros ->; reflexivity. Qed.

Lemma lower_token (b : bool) (g : string) :
  Spec.ci_eq g (Spec.token_of b) -> String.eqb (Text.lower g) "true" = b.
Proof. destruct b; [apply lower_true | apply lower_false]. Qed.

(** The attempt at the start of [s] succeeds, with flag [b], exactly
    when [s] starts with an agreement tag around the token of [b]. *)
Lemma AGREE_TAG_at_iff (s : string) (b : bool) :
  (exists g, Re.AGREE_TAG_at s = Some g /\
             String.eqb (Text.lower g) "true" = b) <->
  (exists t post, s = t ++ post /\ Spec.agreement_tag (Spec.token_of b) t).
Proof.
  unfold Re.AGREE_TAG_at, Spec.agreement_tag. split.
  - intros (g & H & Hb).
    destruct (Re.imatch "<AGREE>" s) as [[o r]|] eqn:Eo; [|discriminate].
    apply imatch_Some in Eo; destruct Eo as [-> Ho].
    assert (Hg : exists tok, Re.token_then_close tok "</AGREE>" r = Some g
                             /\ (tok = "true" \/ tok = "false")).
    { destruct (Re.token_then_close "true" "</AGREE>" r) eqn:E.
      - injection H as ->; eauto.
      - eauto. }
    destruct Hg as (tok & Ht & Htok).
    apply token_then_close_Some in Ht.
    destruct Ht as (c & rest & -> & Hg & Hc).
    exists (o ++ g ++ c), rest. split.
    + rewrite !app_assoc3; reflexivity.
    + exists o, g, c; repeat split; auto.
      destruct Htok as [-> | ->].
      * rewrite (lower_true g Hg) in Hb; subst b; exact Hg.
      * rewrite (lower_false g Hg) in Hb; subst b; exact Hg.
  - intros (t & post & -> & o & g & c & -> & Ho & Hg & Hc).
    exists g. split; [|apply lower_token; exact Hg].
    rewrite !app_assoc3.
    assert (Eo : Re.imatch "<AGREE>" (o ++ g ++ c ++ post)
                 = Some (o, g ++ c ++ post)) by (apply imatch_Some; auto).
    rewrite Eo.
    assert (Et : Re.token_then_close (Spec.token_of b) "</AGREE>" (g ++ c ++ post)
                 = Some g)
      by (apply token_then_close_Some; exists c, post; auto).
    destruct b; cbn [Spec.token_of] in *.
    + rewrite Et; reflexivity.
    + unfold Re.token_then_close at 1.
      rewrite (false_is_not_true g (c ++ post) Hg). exact Et.
Qed.

Lemma any_agreement_tag_iff (t : string) :
  Spec.any_agreement_tag t <-> exists b, Spec.agreement_tag (Spec.token_of b) t.
Proof.
  unfold Spec.any_agreement_tag; split.
  - intros [H|H]; [exists true | exists false]; exact H.
  - intros [[] H]; [left | right]; exact H.
Qed.

Lemma AGREE_TAG_at_None (s : string) :
  Re.AGREE_TAG_at s = None <->
  forall t post, s = t ++ post -> ~ Spec.any_agreement_tag t.
Proof.
  split.
  - intros H t post E C. apply any_agreement_tag_iff in C; destruct C as [b C].
    assert (X : exists g, Re.AGREE_TAG_at s = Some g /\
                          String.eqb (Text.lower g) "true" = b)
      by (apply AGREE_TAG_at_iff; eauto).
    destruct X as (g & X & _); rewrite X in H; discriminate.
  - intro H. destruct (Re.AGREE_TAG_at s) as [g|] eqn:E; [|reflexivity].
    assert (X : exists t post, s = t ++ post /\
               Spec.agreement_tag (Spec.token_of (String.eqb (Text.lower g) "true")) t)
      by (apply AGREE_TAG_at_iff; eauto).
    destruct X as (t & post & Es & X).
    destruct (H t post Es). apply any_agreement_tag_iff; eauto.
Qed.

End AgreementFacts.

(** C3.  For every text, the agreement extractor answers [None] exactly
    when no agreement tag around the token true or false occurs
    anywhere in the text (letter case ignored), and answers [Some b]
    exactly when the first such tag of the text wraps the token of [b]:
    true for a token that reads true, false for one that reads false. *)
Theorem extract_agreement_first_tag (text : string) :
  (_extract_agreement text = None <->
   forall n, ~ Spec.occurs_at Spec.any_agreement_tag n text) /\
  (forall b, _extract_agreement text = Some b <->
     exists n, Spec.first_at Spec.any_agreement_tag n text /\
               Spec.occurs_at (Spec.agreement_tag (Spec.token_of b)) n text).
Proof.
  unfold _extract_agreement, Spec.first_at, Spec.occurs_at. split.
  - destruct (Re.search Re.AGREE_TAG_at text) as [g|] eqn:E.
    + split; [discriminate|]. intro H. exfalso.
      apply search_Some in E. destruct E as (pre & post & -> & Eg & _).
      assert (X : exists t post', post = t ++ post' /\
                 Spec.agreement_tag
                   (Spec.token_of (String.eqb (Text.lower g) "true")) t)
        by (apply AGREE_TAG_at_iff; eauto).
      destruct X as (t & post' & -> & X).
      apply (H (String.length pre)). exists pre, t, post'.
      repeat split; auto. apply any_agreement_tag_iff; eauto.
    + split; [|reflexivity]. intros _ n (pre & t & post & -> & _ & C).
      rewrite search_None in E.
      pose proof (E pre (t ++ post) eq_refl) as N.
      rewrite AGREE_TAG_at_None in N. exact (N t post eq_refl C).
  - intro b. split.
    + destruct (Re.search Re.AGREE_TAG_at text) as [g|] eqn:E; [|discriminate].
      intros [= Hb].
      apply search_Some in E. destruct E as (pre & post & -> & Eg & Hmin).
      assert (X : exists t post', post = t ++ post' /\
                 Spec.agreement_tag (Spec.token_of b) t)
        by (apply AGREE_TAG_at_iff; eauto).
      destruct X as (t & post' & -> & X).
      exists (String.length pre). repeat split.
      * exists pre, t, post'. repeat split; auto.
        apply any_agreement_tag_iff; eauto.
      * intros m (pre' & t' & post'' & E' & <- & C).
        destruct (Nat.le_gt_cases (String.length pre) (String.length pre'))
          as [L|L]; [exact L|]. exfalso.
        pose proof (Hmin pre' (t' ++ post'') E' L) as N.
        rewrite AGREE_TAG_at_None in N. exact (N t' post'' eq_refl C).
      * exists pre, t, post'. auto.
    + intros (n & [_ Hmin] & pre & t & post & -> & <- & C).
      assert (X : exists g, Re.AGREE_TAG_at (t ++ post) = Some g /\
                            String.eqb (Text.lower g) "true" = b)
        by (apply AGREE_TAG_at_iff; eauto).
      destruct X as (g & Eg & Hb).
      assert (S : Re.search Re.AGREE_TAG_at (pre ++ t ++ post) = Some g).
      { apply search_Some. exists pre, (t ++ post). repeat split; auto.
        intros pre' post' E' L.
        destruct (Re.AGREE_TAG_at post') as [g'|] eqn:E''; [|reflexivity].
        exfalso.
        assert (Y : exists t' p', post' = t' ++ p' /\
                   Spec.agreement_tag
                     (Spec.token_of (String.eqb (Text.lower g') "true")) t')
          by (apply AGREE_TAG_at_iff; eauto).
        destruct Y as (t' & p' & -> & Y).
        assert (String.length pre <= String.length pre')%nat; [|lia].
        apply Hmin. exists pre', t', p'. repeat split; auto.
        apply any_agreement_tag_iff; eauto. }
      rewrite S, Hb; reflexivity.
Qed.

(** ** The final answer *)

Section FinalFacts.

Lemma len_zero (s : string) : String.length s = O -> s = "".
Proof. destruct s; [reflexivity | discriminate]. Qed.

(** The lazy group is the shortest text after which the closing
    literal matches. *)
Lemma lazy_until_Some (close s g : string) :
  Re.lazy_until close s = Some g <->
  exists c rest,
    s = g ++ c ++ rest /\ Spec.ci_eq c close /\
    forall g' c' rest', s = g' ++ c' ++ rest' -> Spec.ci_eq c' close ->
      (String.length g <= String.length g')%nat.
Proof.
  revert g; induction s as [|x s IH]; intro g.
  - cbn [Re.lazy_until].
    destruct (Re.imatch close "") as [[c rest]|] eqn:E.
    + apply imatch_Some in E; destruct E as [E Hc]. split.
      * intros [= <-]. exists c, rest; cbn; repeat split; auto. intros; lia.
      * intros (c1 & r1 & E1 & _). destruct g; [reflexivity | discriminate].
    + split; [discriminate|]. intros (c1 & r1 & E1 & Hc1 & _).
      destruct g; [|discriminate]. cbn in E1.
      rewrite imatch_None in E. destruct (E _ _ E1 Hc1).
  - cbn [Re.lazy_until].
    destruct (Re.imatch close (String x s)) as [[c rest]|] eqn:E.
    + apply imatch_Some in E; destruct E as [E Hc]. split.
      * intros [= <-]. exists c, rest; cbn; repeat split; auto. intros; lia.
      * intros (c1 & r1 & E1 & _ & Hmin).
        pose proof (Hmin "" c rest E Hc) as L; cbn in L.
        rewrite (len_zero g); [reflexivity | lia].
    + rewrite imatch_None in E.
      destruct (Re.lazy_until close s) as [g0|] eqn:El.
      * destruct (proj1 (IH g0) eq_refl) as (c & rest & Es & Hc & Hmin).
        split.
        -- intros [= <-]. exists c, rest; cbn; rewrite <- Es; repeat split; auto.
           intros [|y g'] c' rest' E' Hc'; cbn in E'.
           ++ destruct (E _ _ E' Hc').
           ++ injection E' as _ E'. cbn. pose proof (Hmin _ _ _ E' Hc'); lia.
        -- intros (c1 & r1 & E1 & Hc1 & Hmin1).
           destruct g as [|y g]; cbn in E1; [destruct (E _ _ E1 Hc1)|].
           injection E1 as <- E1.
           assert (X : Some g0 = Some g); [|injection X as ->; reflexivity].
           apply IH. exists c1, r1; repeat split; auto.
           intros g' c' rest' E' Hc'.
           pose proof (Hmin1 (String x g') c' rest') as L; cbn in L.
           rewrite E' in L. specialize (L eq_refl Hc'); lia.
      * split; [discriminate|]. intros (c1 & r1 & E1 & Hc1 & Hmin1).
        destruct g as [|y g]; cbn in E1; [destruct (E _ _ E1 Hc1)|].
        injection E1 as <- E1. exfalso.
        assert (X : @None string = Some g); [|discriminate].
        apply IH. exists c1, r1; repeat split; auto.
        intros g' c' rest' E' Hc'.
        pose proof (Hmin1 (String x g') c' rest') as L; cbn in L.
        rewrite E' in L. specialize (L eq_refl Hc'); lia.
Qed.

Lemma lazy_until_None (close s : string) :
  Re.lazy_until close s = None <->
  forall g c rest, s = g ++ c ++ rest -> ~ Spec.ci_eq c close.
Proof.
  induction s as [|x s IH]; cbn [Re.lazy_until].
  - destruct (Re.imatch close "") as [[c rest]|] eqn:E.
    + apply imatch_Some in E; destruct E as [E Hc].
      split; [discriminate|]. intro H. destruct (H "" c rest E Hc).
    + rewrite imatch_None in E.
      split; [|reflexivity]. intros _ [|y g] c rest E1; [|discriminate].
      exact (E c rest E1).
  - destruct (Re.imatch close (String x s)) as [[c rest]|] eqn:E.
    + apply imatch_Some in E; destruct E as [E Hc].
      split; [discriminate|]. intro H. destruct (H "" c rest E Hc).
    + rewrite imatch_None in E.
      destruct (Re.lazy_until close s) as [g0|] eqn:El.
      * split; [discriminate|]. intro H. exfalso.
        apply lazy_until_Some in El. destruct El as (c & rest & Es & Hc & _).
        apply (H (String x g0) c rest); [cbn; rewrite Es; reflexivity | exact Hc].
      * split; [|reflexivity]. intros _ [|y g] c rest E1; cbn in E1.
        -- exact (E c rest E1).
        -- injection E1 as _ E1. exact (proj1 IH eq_refl _ _ _ E1).
Qed.

End FinalFacts.

Section StripFacts.

Lemma lstrip_split (s : string) :
  exists l, s = l ++ Text.lstrip s /\ Spec.all_space l /\
    forall c a', Text.lstrip s = String c a' -> Text.isspace c = false.
Proof.
  induction s as [|x s (l & E & Hl & Hc)]; cbn.
  - exists ""; repeat split; auto. discriminate.
  - destruct (Text.isspace x) eqn:Ex.
    + exists (String x l); cbn; rewrite <- E; repeat split; auto.
    + exists ""; repeat split; auto. intros c a' [= <- _]; exact Ex.
Qed.

Lemma rstrip_split (s : string) :
  exists r, s = Text.rstrip s ++ r /\ Spec.all_space r /\
    forall a' c, Text.rstrip s = a' ++ String c "" -> Text.isspace c = false.
Proof.
  induction s as [|x s (r & E & Hr & Hc)]; cbn.
  - exists ""; repeat split; auto. intros [|] ? ?; discriminate.
  - destruct (Text.rstrip s) as [|y r0] eqn:Er.
    + cbn in E; subst r. destruct (Text.isspace x) eqn:Ex.
      * exists (String x s); cbn; repeat split; auto.
      * exists s; cbn; repeat split; auto.
        intros [|z a'] c H; cbn in H.
        -- injection H as <-; exact Ex.
        -- injection H as _ H. destruct a'; discriminate.
    + exists r; cbn. rewrite E; repeat split; auto.
      intros [|z a'] c H; cbn in H.
      * discriminate.
      * injection H as _ H. exact (Hc _ _ H).
Qed.

(** [strip] removes white space at both ends and nothing else. *)
Lemma strip_trimmed (s : string) : Spec.trimmed s (Text.strip s).
Proof.
  unfold Spec.trimmed, Text.strip.
  destruct (lstrip_split s) as (l & El & Hl & Hfirst).
  destruct (rstrip_split (Text.lstrip s)) as (r & Er & Hr & Hlast).
  exists l, r. repeat split; auto.
  - rewrite <- Er; exact El.
  - intros c a' H. rewrite H in Er. cbn in Er. exact (Hfirst _ _ Er).
Qed.

End StripFacts.

Section FinalTagFacts.

Lemma FINAL_TAG_at_Some (s g : string) :
  Re.FINAL_TAG_at s = Some g <->
  exists o c rest,
    s = o ++ g ++ c ++ rest /\
    Spec.ci_eq o "<FINAL>" /\ Spec.ci_eq c "</FINAL>" /\
    forall g' c' rest', g ++ c ++ rest = g' ++ c' ++ rest' ->
      Spec.ci_eq c' "</FINAL>" -> (String.length g <= String.length g')%nat.
Proof.
  unfold Re.FINAL_TAG_at. split.
  - destruct (Re.imatch "<FINAL>" s) as [[o r]|] eqn:Eo; [|discriminate].
    apply imatch_Some in Eo; destruct Eo as [-> Ho].
    intro H. apply lazy_until_Some in H.
    destruct H as (c & rest & -> & Hc & Hmin).
    exists o, c, rest; auto.
  - intros (o & c & rest & -> & Ho & Hc & Hmin).
    assert (Eo : Re.imatch "<FINAL>" (o ++ g ++ c ++ rest)
                 = Some (o, g ++ c ++ rest)) by (apply imatch_Some; auto).
    rewrite Eo. apply lazy_until_Some. exists c, rest; auto.
Qed.

Lemma FINAL_TAG_at_None (s : string) :
  Re.FINAL_TAG_at s = None <->
  forall t post, s = t ++ post -> ~ Spec.any_final_tag t.
Proof.
  unfold Re.FINAL_TAG_at, Spec.any_final_tag, Spec.final_tag. split.
  - intros H t post -> (inner & o & c & -> & Ho & Hc).
    rewrite !app_assoc3 in H.
    assert (Eo : Re.imatch "<FINAL>" (o ++ inner ++ c ++ post)
                 = Some (o, inner ++ c ++ post)) by (apply imatch_Some; auto).
    rewrite Eo in H. rewrite lazy_until_None in H.
    exact (H inner c post eq_refl Hc).
  - intro H.
    destruct (Re.imatch "<FINAL>" s) as [[o r]|] eqn:Eo; [|reflexivity].
    apply imatch_Some in Eo; destruct Eo as [-> Ho].
    apply lazy_until_None. intros g c rest -> Hc.
    apply (H (o ++ g ++ c) rest).
    + rewrite !app_assoc3; reflexivity.
    + exists g, o, c; auto.
Qed.

(** A successful attempt shows a finalization tag at the start. *)
Lemma FINAL_TAG_at_tag (s g : string) :
  Re.FINAL_TAG_at s = Some g ->
  exists t post, s = t ++ post /\ Spec.final_tag g t.
Proof.
  intro H. apply FINAL_TAG_at_Some in H.
  destruct H as (o & c & rest & -> & Ho & Hc & _).
  exists (o ++ g ++ c), rest. split.
  - rewrite !app_assoc3; reflexivity.
  - exists o, c; auto.
Qed.

End FinalTagFacts.

(** C4.  For every text, the final-answer extractor answers [None]
    exactly when no finalization tag occurs in the text (letter case of
    the tag ignored, any characters inside, line breaks included), and
    answers [Some a] exactly when [a] is the stripped content of the
    first finalization tag, the content being the shortest one that a
    closing tag follows; stripping removes the white space at both ends
    and nothing else. *)
Theorem extract_final_first_tag (text : string) :
  (_extract_final_answer text = None <->
   forall n, ~ Spec.occurs_at Spec.any_final_tag n text) /\
  (forall a, _extract_final_answer text = Some a <->
     exists n inner,
       Spec.first_at Spec.any_final_tag n text /\
       Spec.occurs_at (Spec.final_tag inner) n text /\
       (forall inner', Spec.occurs_at (Spec.final_tag inner') n text ->
          (String.length inner <= String.length inner')%nat) /\
       a = Text.strip inner) /\
  (forall s, Spec.trimmed s (Text.strip s)).
Proof.
  unfold _extract_final_answer, Spec.first_at, Spec.occurs_at.
  split; [|split; [|exact strip_trimmed]].
  - destruct (Re.search Re.FINAL_TAG_at text) as [g|] eqn:E.
    + split; [discriminate|]. intro H. exfalso.
      apply search_Some in E. destruct E as (pre & post & -> & Eg & _).
      apply FINAL_TAG_at_tag in Eg. destruct Eg as (t & post' & -> & X).
      apply (H (String.length pre)). exists pre, t, post'.
      repeat split; auto. exists g; exact X.
    + split; [|reflexivity]. intros _ n (pre & t & post & -> & _ & C).
      rewrite search_None in E.
      pose proof (E pre (t ++ post) eq_refl) as N.
      rewrite FINAL_TAG_at_None in N. exact (N t post eq_refl C).
  - intro a. split.
    + destruct (Re.search Re.FINAL_TAG_at text) as [g|] eqn:E; [|discriminate].
      intros [= <-].
      apply search_Some in E. destruct E as (pre & post & -> & Eg & Hmin).
      pose proof Eg as Eg'. apply FINAL_TAG_at_Some in Eg'.
      destruct Eg' as (o & c & rest & -> & Ho & Hc & Hshort).
      exists (String.length pre), g. repeat split.
      * exists pre, (o ++ g ++ c), rest. rewrite !app_assoc3.
        repeat split; auto. exists g, o, c; auto.
      * intros m (pre' & t' & post'' & E' & <- & C).
        destruct (Nat.le_gt_cases (String.length pre) (String.length pre'))
          as [L|L]; [exact L|]. exfalso.
        pose proof (Hmin pre' (t' ++ post'') E' L) as N.
        rewrite FINAL_TAG_at_None in N. exact (N t' post'' eq_refl C).
      * exists pre, (o ++ g ++ c), rest. rewrite !app_assoc3.
        repeat split; auto. exists o, c; auto.
      * intros inner' (pre' & t' & post' & E' & L' & o' & c' & -> & Ho' & Hc').
        rewrite !app_assoc3 in E'.
        destruct (split_unique _ _ _ _ E' (eq_sym L')) as [<- E2].
        assert (Lo : String.length o = String.length o')
          by (rewrite (ci_eq_len _ _ Ho), (ci_eq_len _ _ Ho'); reflexivity).
        destruct (split_unique _ _ _ _ E2 Lo) as [<- E3].
        exact (Hshort _ _ _ E3 Hc').
    + intros (n & inner & [_ Hmin] & (pre & t & post & -> & <- & o & c & -> & Ho & Hc)
              & Hshort & ->).
      assert (Eg : Re.FINAL_TAG_at ((o ++ inner ++ c) ++ post) = Some inner).
      { apply FINAL_TAG_at_Some. exists o, c, post. rewrite !app_assoc3.
        repeat split; auto.
        intros g' c' rest' E' Hc'. apply Hshort.
        exists pre, (o ++ g' ++ c'), rest'. repeat split.
        - rewrite !app_assoc3, E'; reflexivity.
        - exists o, c'; auto. }
      assert (S : Re.search Re.FINAL_TAG_at (pre ++ (o ++ inner ++ c) ++ post)
                  = Some inner).
      { apply search_Some. exists pre, ((o ++ inner ++ c) ++ post).
        repeat split; auto.
        intros pre' post' E' L.
        destruct (Re.FINAL_TAG_at post') as [g'|] eqn:E''; [|reflexivity].
        exfalso. apply FINAL_TAG_at_tag in E''.
        destruct E'' as (t' & p' & -> & Y).
        assert (String.length pre <= String.length pre')%nat; [|lia].
        apply Hmin. exists pre', t', p'. repeat split; auto.
        exists g'; exact Y. }
      rewrite S; reflexivity.
Qed.

(** ** One round, the loop, the run *)

Section RoundFacts.
Context {World : Type}.
Variable env : Collaborators World.
Variable T : Prompts.Templates.
Variable expression : string.
Variable max_rounds : Z.
Variable pp : Config.PacingProfile.

Lemma execute_turn_run (f : World -> Outcome string * World)
    (speaker_name : string) (st : Run World) :
  execute_turn env f speaker_name st =
  match f (turn_started env speaker_name (world st)) with
  | (Returned a, w) =>
      (Returned a,
       mkRun (turn_padding env speaker_name w) (result st)
             (conversation_history st))
  | (Raised e, w) =>
      (Raised e, mkRun w (result st) (conversation_history st))
  end.
Proof.
  unfold execute_turn, bind, call, on_world, ret; cbn.
  destruct (f _) as [[a|e] w]; reflexivity.
Qed.

Lemma finalization_cases (tm : list Prompts.Message) (n : string)
    (st st' : Run World) (o : Outcome LoopCtl) :
  finalization env pp tm n st = (o, st') ->
  (exists e, o = Raised e /\ result st' = result st) \/
  (exists f, o = Returned Break /\ result st' = finalized f (result st)).
Proof.
  unfold finalization, gap, bind, on_world, modify_result, ret.
  rewrite execute_turn_run. cbn [world result conversation_history].
  destruct (_call_terrence env _ _ _) as [[f|e] w].
  - intro H. right. exists f. unfold finalized. cbv zeta.
    destruct (Text.truthy_opt (_extract_final_answer f));
      injection H as <- <-; split; reflexivity.
  - intros [= <- <-]. left. exists e; split; reflexivity.
Qed.

Lemma critic_part_cases (round_num : Z) (tm : list Prompts.Message)
    (s : string) (st st' : Run World) (o : Outcome LoopCtl) :
  critic_part env T max_rounds pp round_num tm s st = (o, st') ->
  (exists e, o = Raised e /\ result st' = result st) \/
  (exists n,
      _extract_agreement n <> Some true /\ o = Returned Continue /\
      result st' = append_turn (critic_turn n) (result st)) \/
  (exists n e,
      _extract_agreement n = Some true /\ o = Raised e /\
      result st' = append_turn (critic_turn n) (result st)) \/
  (exists n f,
      _extract_agreement n = Some true /\ o = Returned Break /\
      result st' =
        finalized f (append_turn (critic_turn n) (result st))).
Proof.
  unfold critic_part, gap.
  unfold bind at 1. unfold on_world at 1.
  unfold bind at 1. unfold get_history at 1.
  cbn [world result conversation_history].
  unfold bind at 1. rewrite execute_turn_run.
  cbn [world result conversation_history].
  destruct (_call_neil env _ _ _) as [[n|e] w].
  - unfold bind at 1. unfold modify_result at 1.
    unfold bind at 1. unfold extend_history at 1.
    cbn [world result conversation_history].
    change (mkDebateTurn "Neil" n (_extract_agreement n) (Text.split_len n))
      with (critic_turn n).
    destruct (_extract_agreement n) as [[|]|] eqn:Ea; cbv beta iota.
    + intro H. apply finalization_cases in H. cbn [result] in H.
      right; right. destruct H as [(e & -> & R) | (f & -> & R)].
      * left. exists n, e; repeat split; auto.
      * right. exists n, f; repeat split; auto.
    + unfold bind, on_world, ret.
      destruct (round_num <? max_rounds - 1); intros [= <- <-];
        right; left; exists n; (split; [congruence | split; reflexivity]).
    + unfold bind, on_world, ret.
      destruct (round_num <? max_rounds - 1); intros [= <- <-];
        right; left; exists n; (split; [congruence | split; reflexivity]).
  - intros [= <- <-]. left. exists e; split; reflexivity.
Qed.

Lemma round_cases (round_num : Z) (st st' : Run World)
    (o : Outcome LoopCtl) :
  round env T expression max_rounds pp round_num st = (o, st') ->
  (exists s n,
      undecided (s, n) /\ o = Returned Continue /\
      result st' =
        append_turn (critic_turn n)
          (append_turn (solver_turn s)
             (set_rounds (round_num + 1) (result st)))) \/
  (exists x,
      x <> Exhausted /\ ending_ok x /\ o = ending_ctl x /\
      result st' =
        ending_apply x (set_rounds (round_num + 1) (result st))).
Proof.
  unfold round.
  unfold bind at 1. unfold modify_result at 1.
  unfold bind at 1. unfold get_history at 1.
  cbn [world result conversation_history].
  unfold bind at 1. rewrite execute_turn_run.
  cbn [world result conversation_history].
  destruct (_call_terrence env _ _ _) as [[s|e] w].
  - unfold bind at 1. unfold modify_result at 1.
    unfold bind at 1. unfold extend_history at 1.
    cbn [world result conversation_history].
    destruct (Text.truthy_opt (_extract_final_answer s)) eqn:Es; cbv beta iota.
    + unfold bind, modify_result, ret. cbn [world result conversation_history].
      intros [= <- <-]. right. exists (EarlyFinal s).
      repeat split; auto; discriminate.
    + intro H. apply critic_part_cases in H. cbn [result] in H.
      destruct H as [(e & -> & R)
                    | [(n & Hn & -> & R)
                      | [(n & e & Hn & -> & R)
                        | (n & f & Hn & -> & R)]]].
      * right. exists (CriticFailed s e). repeat split; auto; discriminate.
      * left. exists s, n. repeat split; auto.
      * right. exists (FinalizationFailed s n e).
        repeat split; auto; discriminate.
      * right. exists (Finalized s n f). repeat split; auto; discriminate.
  - intros [= <- <-]. right. exists (SolverFailed e).
    repeat split; auto; discriminate.
Qed.

Variable pace : Config.PaceMode.

Lemma in_progress_snoc (xs : list Exchange) (s n : string) :
  append_turn (critic_turn n)
    (append_turn (solver_turn s)
       (set_rounds (Z.of_nat (List.length xs) + 1)
          (in_progress expression pace xs)))
  = in_progress expression pace (xs ++ [(s, n)]).
Proof.
  unfold in_progress, append_turn, set_rounds; cbn.
  rewrite flat_map_app, length_app, <- app_assoc; cbn.
  rewrite Nat2Z.inj_add; reflexivity.
Qed.

(** The loop, entered after the undecided rounds [xs] with [m]
    rounds to go: it either runs out, all rounds undecided, or stops
    in a round with a proper ending. *)
Lemma loop_shape (m : nat) :
  forall (xs : list Exchange) (st st' : Run World) (o : Outcome unit),
    result st = in_progress expression pace xs ->
    Forall undecided xs ->
    for_rounds (round env T expression max_rounds pp)
               (map Z.of_nat (seq (List.length xs) m)) st = (o, st') ->
    (o = Returned tt /\
     exists ys, Forall undecided ys /\
                List.length ys = (List.length xs + m)%nat /\
                result st' = in_progress expression pace ys) \/
    (exists ys x,
        Forall undecided ys /\
        (List.length ys < List.length xs + m)%nat /\
        x <> Exhausted /\ ending_ok x /\ o = loop_exit x /\
        result st' =
          ending_apply x
            (set_rounds (Z.of_nat (List.length ys) + 1)
               (in_progress expression pace ys))).
Proof.
  induction m as [|m IH]; intros xs st st' o Hr Hxs.
  - cbn. intros [= <- <-]. left. split; [reflexivity|].
    exists xs. rewrite Nat.add_0_r. auto.
  - cbn [seq map for_rounds]. unfold bind at 1.
    destruct (round env T expression max_rounds pp
                    (Z.of_nat (List.length xs)) st) as [o1 st1] eqn:E.
    apply round_cases in E. rewrite Hr in E.
    destruct E as [(s & n & Hu & -> & R) | (x & Hx & Hok & -> & R)].
    + rewrite in_progress_snoc in R.
      replace (S (List.length xs)) with (List.length (xs ++ [(s, n)]))
        by (rewrite length_app; cbn; lia).
      intro H. apply (IH _ _ _ _ R) in H.
      * rewrite length_app in H; cbn in H.
        destruct H as [(-> & ys & Hys & L & R') | (ys & x & Hys & L & H)].
        -- left. split; [reflexivity|]. exists ys. repeat split; auto. lia.
        -- right. exists ys, x. repeat split; try tauto. lia.
      * apply Forall_app; split; [exact Hxs | constructor; auto].
    + intro H. right. exists xs, x.
      assert (Ho : (o, st') = (loop_exit x, st1)).
      { rewrite <- H. unfold loop_exit.
        destruct x; reflexivity. }
      injection Ho as -> ->.
      repeat split; auto. lia.
Qed.

Lemma status_apply_failed (x : Ending) (e : string) (r : DebateResult) :
  ending_ctl x = Raised e -> status (ending_apply x r) = status r.
Proof. destruct x; cbn; congruence. Qed.

End RoundFacts.

Section RunFacts.
Context {World : Type}.
Variable env : Collaborators World.
Variable T : Prompts.Templates.
Variable settings : Config.Settings.

(** Every run has a shape, and its result is the result of that
    shape. *)
Lemma debate_outcome (expression : string) (max_rounds : option Z)
    (pace : Config.PaceMode) (w : World) :
  exists (xs : list Exchange) (x : Ending),
    Forall undecided xs /\ ending_ok x /\
    within_budget (effective_rounds settings max_rounds) (List.length xs) x /\
    debate env T settings expression max_rounds pace w
      = outcome_of expression pace (effective_rounds settings max_rounds)
                   xs x.
Proof.
  unfold debate, debate_run, debate_try.
  fold (effective_rounds settings max_rounds).
  set (n := effective_rounds settings max_rounds).
  set (pp := Config.get_pacing_profile settings pace).
  cbv zeta. unfold bind at 1.
  destruct (for_rounds _ _ _) as [o st'] eqn:E.
  unfold range in E.
  apply (loop_shape env T expression n pp pace (Z.to_nat n) []) in E;
    [|reflexivity|constructor].
  cbn [List.length Nat.add] in E.
  destruct st' as [w' r' h']; cbn [result] in E.
  destruct E as [(-> & ys & Hys & L & ->) | (ys & x & Hys & L & Hx & Hok & -> & ->)].
  - exists ys, Exhausted. repeat split; auto.
    unfold bind, get_result, modify_result. cbn.
    unfold outcome_of, in_progress, set_error_message, set_status; cbn.
    rewrite Z.add_0_r, app_nil_r. reflexivity.
  - exists ys, x. repeat split; auto.
    + destruct x; cbn; auto; congruence.
    + unfold loop_exit.
      destruct x as [|e|s|s e|s nr e|s nr f]; cbn [ending_ctl]; try congruence;
        unfold bind, get_result, modify_result, ret, outcome_of;
        cbn -[append]; unfold finalized;
        try destruct (Text.truthy_opt (_extract_final_answer f));
        unfold set_error_message, set_status, set_final_answer, append_turn,
          set_rounds, in_progress;
        cbn -[append]; rewrite ?app_nil_r, <- ?app_assoc; reflexivity.
Qed.

End RunFacts.

(** ** Turn lists of a run *)

Section TurnLists.

(** A turn that is not of the kind found all over [l1] lies in
    [l2]. *)
Lemma split_past {A} (P : A -> Prop) (l1 l2 pre post : list A) (t : A) :
  Forall P l1 -> ~ P t ->
  (l1 ++ l2 = pre ++ t :: post)%list ->
  exists pre', pre = (l1 ++ pre')%list /\ l2 = (pre' ++ t :: post)%list.
Proof.
  revert pre; induction l1 as [|a l1 IH]; intros pre Hall Ht E.
  - exists pre; auto.
  - inversion Hall as [|? ? Ha Hl1]; subst.
    destruct pre as [|b pre]; cbn in E.
    + injection E as -> _. contradiction.
    + injection E as <- E.
      destruct (IH pre Hl1 Ht E) as (pre' & -> & ->).
      exists pre'; auto.
Qed.

Lemma undecided_flags (xs : list Exchange) :
  Forall undecided xs ->
  Forall (fun t => agreement_flag t <> Some true)
         (flat_map exchange_turns xs).
Proof.
  induction 1 as [|[s n] xs [_ Hn] _ IH]; cbn; [constructor|].
  constructor; [discriminate|]. constructor; auto.
Qed.

Lemma undecided_no_final (xs : list Exchange) :
  Forall undecided xs ->
  Forall (fun t => ~ (speaker t = "Terrence" /\
                      Text.truthy_opt (_extract_final_answer (content t))
                      = true))
         (flat_map exchange_turns xs).
Proof.
  induction 1 as [|[s n] xs [Hs _] _ IH]; cbn; [constructor|].
  constructor.
  - intros [_ H].
    change (Text.truthy_opt (_extract_final_answer s) = true) in H.
    change (Text.truthy_opt (_extract_final_answer s) = false) in Hs.
    congruence.
  - constructor; auto. intros [H _]. discriminate.
Qed.

Lemma exchange_turns_length (xs : list Exchange) :
  List.length (flat_map exchange_turns xs) = (2 * List.length xs)%nat.
Proof. induction xs as [|x xs IH]; cbn; [|rewrite IH]; lia. Qed.

(** Where an agreeing turn of Neil sits in the turns of a run. *)
Lemma agreeing_turn_place (xs : list Exchange) (x : Ending)
    (pre post : list DebateTurn) (t : DebateTurn) :
  Forall undecided xs -> ending_ok x ->
  (flat_map exchange_turns xs ++ ending_turns x = pre ++ t :: post)%list ->
  agreement_flag t = Some true ->
  exists s n,
    pre = (flat_map exchange_turns xs ++ [solver_turn s])%list /\
    t = critic_turn n /\ _extract_agreement n = Some true /\
    ((exists e, x = FinalizationFailed s n e /\ post = []) \/
     (exists f, x = Finalized s n f /\ post = [solver_turn f])).
Proof.
  intros Hxs Hok E Ht.
  destruct (split_past _ _ _ _ _ _ (undecided_flags xs Hxs)
                       (fun H => H Ht) E) as (pre' & -> & E').
  destruct x as [|e|s|s e|s n e|s n f]; cbn in E', Hok.
  - destruct pre'; discriminate.
  - destruct pre'; discriminate.
  - destruct pre' as [|a [|b pre']]; cbn in E'; try discriminate.
    injection E' as <- _. discriminate.
  - destruct pre' as [|a [|b pre']]; cbn in E'; try discriminate.
    injection E' as <- _. discriminate.
  - destruct Hok as [_ Hn].
    destruct pre' as [|a [|b [|c pre']]]; cbn in E'; try discriminate.
    + injection E' as <- _. discriminate.
    + injection E' as <- <- <-. exists s, n. repeat split; eauto.
  - destruct Hok as [_ Hn].
    destruct pre' as [|a [|b [|c [|d pre']]]]; cbn in E'; try discriminate.
    + injection E' as <- _. discriminate.
    + injection E' as <- <- <-. exists s, n. repeat split; eauto.
    + injection E' as _ _ <- _. discriminate.
Qed.

End TurnLists.

(** ** The calls of the last round *)

Section CallFacts.
Context {World : Type}.
Variable env : Collaborators World.
Variable T : Prompts.Templates.
Variable expression : string.
Variable max_rounds : Z.
Variable pp : Config.PacingProfile.

Local Notation "'tokens'" := (Config.max_tokens_per_turn pp).

Lemma finalization_run (tm : list Prompts.Message) (n : string)
    (st : Run World) :
  finalization env pp tm n st =
  match _call_terrence env
          (tm ++ [Prompts.mkMessage "user"
                    (Prompts.get_terrence_final_prompt n)])%list
          tokens
          (turn_started env "Terrence" (inter_turn_gap env (world st))) with
  | (Returned f, w') =>
      (Returned Break,
       mkRun (turn_padding env "Terrence" w') (finalized f (result st))
             (conversation_history st))
  | (Raised e, w') =>
      (Raised e, mkRun w' (result st) (conversation_history st))
  end.
Proof.
  unfold finalization, gap, bind, on_world, modify_result, ret.
  rewrite execute_turn_run. cbn [world result conversation_history].
  destruct (_call_terrence env _ _ _) as [[f|e] w]; [|reflexivity].
  unfold finalized. cbv zeta.
  destruct (Text.truthy_opt (_extract_final_answer f)); reflexivity.
Qed.

(** Neil's part of a round entered with [history], Terrence having
    answered [s] to [tm]. *)
Lemma critic_part_trace (round_num : Z) (tm history : list Prompts.Message)
    (s : string) (st st' : Run World) (o : Outcome LoopCtl) :
  conversation_history st
    = (history ++ [Prompts.mkMessage "assistant" s])%list ->
  tm = Prompts.get_terrence_messages T expression history ->
  critic_part env T max_rounds pp round_num tm s st = (o, st') ->
  (exists e, o = Raised e /\ result st' = result st) \/
  (exists n,
      _extract_agreement n <> Some true /\ o = Returned Continue /\
      result st' = append_turn (critic_turn n) (result st) /\
      conversation_history st'
        = (history ++ [Prompts.mkMessage "assistant" s;
                       Prompts.mkMessage "user" ("Neil says: " ++ n)])%list) \/
  (exists n e,
      _extract_agreement n = Some true /\ o = Raised e /\
      result st' = append_turn (critic_turn n) (result st) /\
      final_call env T expression tokens history
                 (FinalizationFailed s n e) (world st')) \/
  (exists n f,
      _extract_agreement n = Some true /\ o = Returned Break /\
      result st' = finalized f (append_turn (critic_turn n) (result st)) /\
      final_call env T expression tokens history
                 (Finalized s n f) (world st')).
Proof.
  intros Hh ->.
  unfold critic_part, gap.
  unfold bind at 1. unfold on_world at 1.
  unfold bind at 1. unfold get_history at 1.
  cbn [world result conversation_history].
  unfold bind at 1. rewrite execute_turn_run.
  cbn [world result conversation_history].
  rewrite Hh, removelast_last.
  destruct (_call_neil env _ _ _) as [[n|e] wn] eqn:En.
  - unfold bind at 1. unfold modify_result at 1.
    unfold bind at 1. unfold extend_history at 1.
    cbn [world result conversation_history].
    change (mkDebateTurn "Neil" n (_extract_agreement n) (Text.split_len n))
      with (critic_turn n).
    destruct (_extract_agreement n) as [[|]|] eqn:Ea; cbv beta iota.
    + rewrite finalization_run. cbn [world result conversation_history].
      destruct (_call_terrence env _ _ _) as [[f|e] w'] eqn:Ef;
        intros [= <- <-]; right; right.
      * right. exists n, f. repeat split; auto.
        unfold final_call; cbn [finalization_outcome world].
        eexists _, wn, w'. repeat split; eassumption.
      * left. exists n, e. repeat split; auto.
        unfold final_call; cbn [finalization_outcome world].
        eexists _, wn, w'. repeat split; eassumption.
    + unfold bind, on_world, ret.
      destruct (round_num <? max_rounds - 1); intros [= <- <-];
        right; left; exists n; cbn [conversation_history];
        rewrite <- app_assoc;
        (split; [congruence | repeat split; reflexivity]).
    + unfold bind, on_world, ret.
      destruct (round_num <? max_rounds - 1); intros [= <- <-];
        right; left; exists n; cbn [conversation_history];
        rewrite <- app_assoc;
        (split; [congruence | repeat split; reflexivity]).
  - intros [= <- <-]. left. exists e; split; reflexivity.
Qed.

Lemma round_trace (round_num : Z) (st st' : Run World)
    (o : Outcome LoopCtl) :
  round env T expression max_rounds pp round_num st = (o, st') ->
  (exists s n,
      undecided (s, n) /\ o = Returned Continue /\
      result st' =
        append_turn (critic_turn n)
          (append_turn (solver_turn s)
             (set_rounds (round_num + 1) (result st))) /\
      conversation_history st'
        = (conversation_history st
             ++ [Prompts.mkMessage "assistant" s;
                 Prompts.mkMessage "user" ("Neil says: " ++ n)])%list) \/
  (exists x,
      x <> Exhausted /\ ending_ok x /\ o = ending_ctl x /\
      result st' =
        ending_apply x (set_rounds (round_num + 1) (result st)) /\
      final_call env T expression tokens (conversation_history st) x
                 (world st')).
Proof.
  unfold round.
  unfold bind at 1. unfold modify_result at 1.
  unfold bind at 1. unfold get_history at 1.
  cbn [world result conversation_history].
  unfold bind at 1. rewrite execute_turn_run.
  cbn [world result conversation_history].
  destruct (_call_terrence env _ _ _) as [[s|e] w].
  - unfold bind at 1. unfold modify_result at 1.
    unfold bind at 1. unfold extend_history at 1.
    cbn [world result conversation_history].
    destruct (Text.truthy_opt (_extract_final_answer s)) eqn:Es; cbv beta iota.
    + unfold bind, modify_result, ret. cbn [world result conversation_history].
      intros [= <- <-]. right. exists (EarlyFinal s).
      repeat split; auto; discriminate.
    + intro H.
      apply (critic_part_trace _ _ (conversation_history st)) in H;
        [|reflexivity|reflexivity].
      cbn [result] in H.
      destruct H as [(e & -> & R)
                    | [(n & Hn & -> & R & Hh)
                      | [(n & e & Hn & -> & R & C)
                        | (n & f & Hn & -> & R & C)]]].
      * right. exists (CriticFailed s e). repeat split; auto; discriminate.
      * left. exists s, n. repeat split; auto.
      * right. exists (FinalizationFailed s n e).
        repeat split; auto; discriminate.
      * right. exists (Finalized s n f). repeat split; auto; discriminate.
  - intros [= <- <-]. right. exists (SolverFailed e).
    repeat split; auto; discriminate.
Qed.

Variable pace : Config.PaceMode.

Lemma history_snoc (xs : list Exchange) (s n : string) :
  (map turn_message (flat_map exchange_turns xs)
     ++ [Prompts.mkMessage "assistant" s;
         Prompts.mkMessage "user" ("Neil says: " ++ n)])%list
  = map turn_message (flat_map exchange_turns (xs ++ [(s, n)])).
Proof.
  rewrite flat_map_app, map_app. reflexivity.
Qed.

(** The loop, as in [loop_shape], with the conversation history and
    the calls of the last round. *)
Lemma loop_trace (m : nat) :
  forall (xs : list Exchange) (st st' : Run World) (o : Outcome unit),
    result st = in_progress expression pace xs ->
    conversation_history st = map turn_message (flat_map exchange_turns xs) ->
    Forall undecided xs ->
    for_rounds (round env T expression max_rounds pp)
               (map Z.of_nat (seq (List.length xs) m)) st = (o, st') ->
    (o = Returned tt /\
     exists ys, Forall undecided ys /\
                List.length ys = (List.length xs + m)%nat /\
                result st' = in_progress expression pace ys) \/
    (exists ys x,
        Forall undecided ys /\
        (List.length ys < List.length xs + m)%nat /\
        x <> Exhausted /\ ending_ok x /\ o = loop_exit x /\
        result st' =
          ending_apply x
            (set_rounds (Z.of_nat (List.length ys) + 1)
               (in_progress expression pace ys)) /\
        final_call env T expression tokens
                   (map turn_message (flat_map exchange_turns ys)) x
                   (world st')).
Proof.
  induction m as [|m IH]; intros xs st st' o Hr Hh Hxs.
  - cbn. intros [= <- <-]. left. split; [reflexivity|].
    exists xs. rewrite Nat.add_0_r. auto.
  - cbn [seq map for_rounds]. unfold bind at 1.
    destruct (round env T expression max_rounds pp
                    (Z.of_nat (List.length xs)) st) as [o1 st1] eqn:E.
    apply round_trace in E. rewrite Hr, Hh in E.
    destruct E as [(s & n & Hu & -> & R & H1) | (x & Hx & Hok & -> & R & C)].
    + rewrite in_progress_snoc in R. rewrite history_snoc in H1.
      replace (S (List.length xs)) with (List.length (xs ++ [(s, n)]))
        by (rewrite length_app; cbn; lia).
      intro H. apply (IH _ _ _ _ R H1) in H.
      * rewrite length_app in H; cbn in H.
        destruct H as [(-> & ys & Hys & L & R') | (ys & x & Hys & L & H)].
        -- left. split; [reflexivity|]. exists ys. repeat split; auto. lia.
        -- right. exists ys, x. repeat split; try tauto. lia.
      * apply Forall_app; split; [exact Hxs | constructor; auto].
    + intro H. right. exists xs, x.
      assert (Ho : (o, st') = (loop_exit x, st1)).
      { rewrite <- H. unfold loop_exit.
        destruct x; reflexivity. }
      injection Ho as -> ->.
      repeat split; auto. lia.
Qed.

End CallFacts.

Section RunCalls.
Context {World : Type}.
Variable env : Collaborators World.
Variable T : Prompts.Templates.
Variable settings : Config.Settings.

Lemma debate_run_trace (expression : string) (max_rounds : option Z)
    (pace : Config.PaceMode) (w : World) (st : Run World) :
  debate_run env T settings expression max_rounds pace w = st ->
  exists (xs : list Exchange) (x : Ending),
    Forall undecided xs /\ ending_ok x /\
    result st
      = outcome_of expression pace (effective_rounds settings max_rounds)
                   xs x /\
    final_call env T expression
      (Config.max_tokens_per_turn (Config.get_pacing_profile settings pace))
      (map turn_message (flat_map exchange_turns xs)) x (world st).
Proof.
  unfold debate_run, debate_try.
  fold (effective_rounds settings max_rounds).
  set (n := effective_rounds settings max_rounds).
  set (pp := Config.get_pacing_profile settings pace).
  cbv zeta. unfold bind at 1.
  destruct (for_rounds _ _ _) as [o st'] eqn:E.
  unfold range in E.
  apply (loop_trace env T expression n pp pace (Z.to_nat n) []) in E;
    [|reflexivity|reflexivity|constructor].
  cbn [List.length Nat.add] in E.
  destruct st' as [w' r' h']; cbn [result world] in E.
  destruct E as [(-> & ys & Hys & L & ->)
                | (ys & x & Hys & L & Hx & Hok & -> & -> & C)].
  - intros <-. exists ys, Exhausted. repeat split; auto.
    unfold bind, get_result, modify_result. cbn.
    unfold outcome_of, in_progress, set_error_message, set_status; cbn.
    rewrite Z.add_0_r, app_nil_r. reflexivity.
  - intros <-. exists ys, x. split; [exact Hys|]. split; [exact Hok|].
    unfold loop_exit.
    destruct x as [|e|s|s e|s nr e|s nr f]; cbn [ending_ctl]; try congruence;
      (split;
       [ unfold bind, get_result, modify_result, ret, outcome_of;
         cbn -[append]; unfold finalized;
         try destruct (Text.truthy_opt (_extract_final_answer f));
         unfold set_error_message, set_status, set_final_answer, append_turn,
           set_rounds, in_progress;
         cbn -[append]; rewrite ?app_nil_r, <- ?app_assoc; reflexivity
       | try exact I ]).
    + exact C.
    + unfold bind, get_result, modify_result, ret.
      cbn [result status ending_apply].
      unfold finalized.
      destruct (Text.truthy_opt (_extract_final_answer f));
        cbn -[append]; exact C.
Qed.

End RunCalls.

(** ** The protocol *)

Section Protocol.
Context {World : Type}.
Variable env : Collaborators World.
Variable T : Prompts.Templates.
Variable settings : Config.Settings.

Lemma all_continue_shape (expression : string) (n : Z)
    (pp : Config.PacingProfile) (pace : Config.PaceMode) (m : nat) :
  forall (xs : list Exchange) (st : Run World),
    result st = in_progress expression pace xs ->
    Forall undecided xs ->
    all_continue (round env T expression n pp)
                 (map Z.of_nat (seq (List.length xs) m)) st = true ->
    exists ys st',
      for_rounds (round env T expression n pp)
                 (map Z.of_nat (seq (List.length xs) m)) st
        = (Returned tt, st') /\
      Forall undecided ys /\
      List.length ys = (List.length xs + m)%nat /\
      result st' = in_progress expression pace ys.
Proof.
  induction m as [|m IH]; intros xs st Hr Hxs.
  - cbn. intros _. exists xs, st. rewrite Nat.add_0_r. auto.
  - cbn [seq map for_rounds all_continue]. unfold bind at 1.
    destruct (round env T expression n pp (Z.of_nat (List.length xs)) st)
      as [o1 st1] eqn:E.
    apply round_cases in E. rewrite Hr in E.
    destruct E as [(s & r & Hu & -> & R) | (x & Hx & Hok & -> & R)].
    + rewrite in_progress_snoc in R.
      replace (S (List.length xs)) with (List.length (xs ++ [(s, r)]))
        by (rewrite length_app; cbn; lia).
      intro H. apply (IH _ _ R) in H.
      * destruct H as (ys & st' & F & Hys & L & R').
        rewrite length_app in L; cbn in L.
        exists ys, st'. repeat split; auto. lia.
      * apply Forall_app; split; [exact Hxs | constructor; auto].
    + destruct x; cbn; congruence.
Qed.

Lemma exhausted_outcome (expression : string)
    (max_rounds : option Z) (pace : Config.PaceMode) (w : World) :
  rounds_exhausted env T settings expression max_rounds pace w = true ->
  exists ys,
    Forall undecided ys /\
    List.length ys = Z.to_nat (effective_rounds settings max_rounds) /\
    debate env T settings expression max_rounds pace w
      = outcome_of expression pace (effective_rounds settings max_rounds)
                   ys Exhausted.
Proof.
  unfold rounds_exhausted, debate, debate_run, debate_try.
  fold (effective_rounds settings max_rounds).
  set (n := effective_rounds settings max_rounds).
  cbv zeta. unfold range. intro H.
  apply (all_continue_shape expression n _ pace (Z.to_nat n) []) in H;
    [|reflexivity|constructor].
  destruct H as (ys & [w' r' h'] & F & Hys & L & R).
  cbn [result] in R; subst r'. cbn [List.length Nat.add] in F, L.
  exists ys. repeat split; auto.
  unfold bind at 1. rewrite F.
  unfold bind, get_result, modify_result, outcome_of. cbn -[append].
  rewrite Z.add_0_r, app_nil_r. reflexivity.
Qed.

(** C2.  When all [max_rounds] rounds of a debate complete and none
    of them reaches a terminal status (no call raises, no round
    breaks out on an early final answer or on agreement), the result
    has status TIMEOUT, no final answer, and the error message that
    names the round budget. *)
Theorem exhausted_budget_is_timeout (expression : string)
    (max_rounds : option Z) (pace : Config.PaceMode) (w : World) :
  rounds_exhausted env T settings expression max_rounds pace w = true ->
  status (debate env T settings expression max_rounds pace w) = TIMEOUT /\
  final_answer (debate env T settings expression max_rounds pace w) = None /\
  error_message (debate env T settings expression max_rounds pace w)
    = Some ("Debate did not reach agreement within "
              ++ Text.str_of_int (effective_rounds settings max_rounds)
              ++ " rounds").
Proof.
  intro H. apply exhausted_outcome in H.
  destruct H as (ys & _ & _ & ->). repeat split; reflexivity.
Qed.

(** C7 (amended).  For every debate run, whatever [max_rounds] is
    and whatever the clients answer or raise, the rounds completed
    are at least 0 and at most the larger of 0 and [max_rounds]; so
    they are at most [max_rounds] whenever [max_rounds] is not
    negative. *)
Theorem rounds_within_budget (expression : string)
    (max_rounds : option Z) (pace : Config.PaceMode) (w : World) :
  0 <= rounds (debate env T settings expression max_rounds pace w)
    <= Z.max 0 (effective_rounds settings max_rounds).
Proof.
  destruct (debate_outcome env T settings expression max_rounds pace w)
    as (xs & x & _ & _ & Hb & ->).
  unfold outcome_of; cbn [rounds].
  destruct x; cbn in Hb |- *; lia.
Qed.

(** C8.  For every debate run, once a turn of Neil carries the
    agreement flag true, no later recorded turn is Neil's, no other
    recorded turn carries the flag true, and what follows is at most
    the single finalization turn of Terrence. *)
Theorem no_critic_turn_after_agreement (expression : string)
    (max_rounds : option Z) (pace : Config.PaceMode) (w : World)
    (pre post : list DebateTurn) (t : DebateTurn) :
  turns (debate env T settings expression max_rounds pace w)
    = (pre ++ t :: post)%list ->
  speaker t = "Neil" ->
  agreement_flag t = Some true ->
  Forall (fun t' => speaker t' <> "Neil") post /\
  Forall (fun t' => agreement_flag t' <> Some true) (pre ++ post)%list /\
  (post = [] \/ exists f, post = [solver_turn f]).
Proof.
  destruct (debate_outcome env T settings expression max_rounds pace w)
    as (xs & x & Hxs & Hok & _ & ->).
  unfold outcome_of; cbn [turns]. intros E _ Ht.
  destruct (agreeing_turn_place xs x pre post t Hxs Hok E Ht)
    as (s & n & -> & -> & Hn & [(e & -> & ->) | (f & -> & ->)]).
  - repeat split; auto.
    rewrite app_nil_r. apply Forall_app; split.
    + apply undecided_flags; exact Hxs.
    + constructor; [discriminate | constructor].
  - repeat split; eauto.
    + constructor; [discriminate | constructor].
    + apply Forall_app; split; [apply Forall_app; split|].
      * apply undecided_flags; exact Hxs.
      * constructor; [discriminate | constructor].
      * constructor; [discriminate | constructor].
Qed.

(** C1 (amended).  For every debate run in which a turn of Neil
    carries the agreement flag true: that turn is the response of
    Neil's call to the turn of Terrence before it, and in the world
    that call left, after its padding, the gap and the progress event,
    the orchestrator calls Terrence once more, on the round's messages
    followed by the finalization prompt, and leaves the loop; the run
    returns in the world this call left.  When the call raises, no
    further turn is recorded and the result is ERROR with the message
    of the exception and no final answer.  When it returns, its
    response is the one further turn recorded, after the padding:
    when the final answer extracted from it is present and not empty
    the status is COMPLETED with that answer stored, and when it is
    absent or empty the status is ERROR with the message that Terrence
    failed to finalize after agreement. *)
Theorem finalization_after_agreement (expression : string)
    (max_rounds : option Z) (pace : Config.PaceMode) (w : World)
    (pre post : list DebateTurn) (t : DebateTurn) :
  turns (debate env T settings expression max_rounds pace w)
    = (pre ++ t :: post)%list ->
  speaker t = "Neil" ->
  agreement_flag t = Some true ->
  exists (before : list DebateTurn) (s : string) (w0 wn w' : World)
         (o : Outcome string),
    pre = (before ++ [solver_turn s])%list /\
    _call_neil env
      (Prompts.get_neil_messages T s (map turn_message before))
      (Config.max_tokens_per_turn (Config.get_pacing_profile settings pace))
      w0
      = (Returned (content t), wn) /\
    _call_terrence env
      (Prompts.get_terrence_messages T expression (map turn_message before)
         ++ [Prompts.mkMessage "user"
               (Prompts.get_terrence_final_prompt (content t))])%list
      (Config.max_tokens_per_turn (Config.get_pacing_profile settings pace))
      (turn_started env "Terrence"
         (inter_turn_gap env (turn_padding env "Neil" wn)))
      = (o, w') /\
    match o with
    | Raised e =>
        post = [] /\
        world (debate_run env T settings expression max_rounds pace w) = w' /\
        status (debate env T settings expression max_rounds pace w) = ERROR /\
        final_answer (debate env T settings expression max_rounds pace w)
          = None /\
        error_message (debate env T settings expression max_rounds pace w)
          = Some e
    | Returned f =>
        post = [solver_turn f] /\
        world (debate_run env T settings expression max_rounds pace w)
          = turn_padding env "Terrence" w' /\
        (forall a, _extract_final_answer f = Some a -> a <> "" ->
           status (debate env T settings expression max_rounds pace w)
             = COMPLETED /\
           final_answer (debate env T settings expression max_rounds pace w)
             = Some a) /\
        (_extract_final_answer f = None \/ _extract_final_answer f = Some "" ->
           status (debate env T settings expression max_rounds pace w)
             = ERROR /\
           error_message (debate env T settings expression max_rounds pace w)
             = Some "Terrence failed to provide final answer after agreement" /\
           final_answer (debate env T settings expression max_rounds pace w)
             = None)
    end.
Proof.
  unfold debate.
  destruct (debate_run_trace env T settings expression max_rounds pace w
              _ eq_refl) as (xs & x & Hxs & Hok & R & C).
  rewrite R. clear R.
  unfold outcome_of; cbn [turns status final_answer error_message].
  intros E _ Ht.
  destruct (agreeing_turn_place xs x pre post t Hxs Hok E Ht)
    as (s & n & -> & -> & Hn & [(e & -> & ->) | (f & -> & ->)]);
    unfold final_call in C; cbn [finalization_outcome] in C;
    destruct C as (w0 & wn & w' & Cn & Cf & Cw);
    exists (flat_map exchange_turns xs), s, w0, wn, w'.
  - exists (Raised e). cbn. repeat split; auto.
  - exists (Returned f). cbn [content critic_turn].
    split; [reflexivity|]. split; [exact Cn|]. split; [exact Cf|].
    split; [reflexivity|]. split; [exact Cw|]. cbn.
    split.
    + intros a Ha Hne. rewrite Ha. cbn.
      destruct a; [congruence | cbn; auto].
    + intros [Ha | Ha]; rewrite Ha; cbn; auto.
Qed.

(** C10.  For every debate run in which Neil agreed and the
    finalization response of Terrence holds a finalization tag whose
    content strips to the empty string, the result has status ERROR
    with the failed-to-finalize message and no final answer, not
    COMPLETED; the tags with nothing or only blanks inside are such
    responses. *)
Theorem empty_final_answer_is_error (expression : string)
    (max_rounds : option Z) (pace : Config.PaceMode) (w : World)
    (pre : list DebateTurn) (n f : DebateTurn) :
  turns (debate env T settings expression max_rounds pace w)
    = (pre ++ [n; f])%list ->
  speaker n = "Neil" ->
  agreement_flag n = Some true ->
  _extract_final_answer (content f) = Some "" ->
  status (debate env T settings expression max_rounds pace w) = ERROR /\
  error_message (debate env T settings expression max_rounds pace w)
    = Some "Terrence failed to provide final answer after agreement" /\
  final_answer (debate env T settings expression max_rounds pace w) = None /\
  _extract_final_answer "<FINAL></FINAL>" = Some "" /\
  _extract_final_answer "<FINAL>   </FINAL>" = Some "".
Proof.
  destruct (debate_outcome env T settings expression max_rounds pace w)
    as (xs & x & Hxs & Hok & _ & ->).
  unfold outcome_of; cbn [turns status final_answer error_message].
  intros E _ Ht Hf.
  destruct (agreeing_turn_place xs x pre [f] n Hxs Hok E Ht)
    as (s & r & -> & -> & Hn & [(e & -> & C) | (f' & -> & [= ->])]).
  - discriminate.
  - cbn [content solver_turn] in Hf. cbn. rewrite Hf. cbn.
    repeat split; reflexivity.
Qed.

(** C6 (amended).  For every debate run, if the response of a turn
    of Terrence taken before any agreement of Neil holds a final
    answer that is not empty, then that turn is the last one recorded
    (no turn of Neil follows in that round), the status is COMPLETED
    and the extracted answer is stored as the final answer. *)
Theorem early_final_answer_completes (expression : string)
    (max_rounds : option Z) (pace : Config.PaceMode) (w : World)
    (pre post : list DebateTurn) (t : DebateTurn) (a : string) :
  turns (debate env T settings expression max_rounds pace w)
    = (pre ++ t :: post)%list ->
  speaker t = "Terrence" ->
  Forall (fun t' => agreement_flag t' <> Some true) pre ->
  _extract_final_answer (content t) = Some a ->
  a <> "" ->
  post = [] /\
  status (debate env T settings expression max_rounds pace w) = COMPLETED /\
  final_answer (debate env T settings expression max_rounds pace w) = Some a.
Proof.
  destruct (debate_outcome env T settings expression max_rounds pace w)
    as (xs & x & Hxs & Hok & _ & ->).
  unfold outcome_of; cbn [turns status final_answer].
  intros E Hsp Hpre Ha Hne.
  assert (Htr : Text.truthy_opt (_extract_final_answer (content t)) = true)
    by (rewrite Ha; destruct a; [congruence | reflexivity]).
  destruct (split_past _ _ _ _ _ _ (undecided_no_final xs Hxs)
                       (fun H => H (conj Hsp Htr)) E) as (pre' & -> & E').
  apply Forall_app in Hpre. destruct Hpre as [_ Hpre].
  destruct x as [|e|s|s e|s n e|s n f]; cbn in E', Hok.
  - destruct pre'; discriminate.
  - destruct pre'; discriminate.
  - destruct pre' as [|b [|c pre']]; cbn in E'; try discriminate.
    injection E' as <- <-. cbn in Ha |- *. auto.
  - destruct pre' as [|b [|c pre']]; cbn in E'; try discriminate.
    injection E' as <- _. cbn in Htr. congruence.
  - destruct pre' as [|b [|c [|d pre']]]; cbn in E'; try discriminate.
    + injection E' as <- _. cbn in Htr. destruct Hok; congruence.
    + injection E' as _ <- _. discriminate.
  - destruct Hok as [Hs Hn].
    destruct pre' as [|b [|c [|d [|d' pre']]]]; cbn in E'; try discriminate.
    + injection E' as <- _. cbn in Htr. congruence.
    + injection E' as _ <- _. discriminate.
    + injection E' as <- <- _ _.
      inversion Hpre as [|? ? _ Hp2]; subst.
      inversion Hp2 as [|? ? Hc _]; subst. cbn in Hc. congruence.
Qed.

End Protocol.

(** ** Scripted runs *)

(** C5 (amended).  In the run where the three responses of Terrence
    carry no final answer, Neil refuses in rounds 1 and 2 and agrees
    in round 3, and the finalization response carries a tagged,
    non-empty answer, the result has status COMPLETED, 3 rounds, 7
    recorded turns (two per round and the finalization turn) and the
    tagged value as final answer. *)
Theorem three_round_agreement (T : Prompts.Templates) (settings : Config.Settings)
    (expression : string) (max_rounds : Z) (pace : Config.PaceMode)
    (s1 s2 s3 n1 n2 n3 f a : string)
    (more_terrence more_neil : list (Outcome string)) :
  3 <= max_rounds ->
  _extract_final_answer s1 = None ->
  _extract_final_answer s2 = None ->
  _extract_final_answer s3 = None ->
  _extract_agreement n1 = Some false ->
  _extract_agreement n2 = Some false ->
  _extract_agreement n3 = Some true ->
  _extract_final_answer f = Some a ->
  a <> "" ->
  let res :=
    debate Scripted.env T settings expression (Some max_rounds) pace
      (Scripted.mkWorld
         (Returned s1 :: Returned s2 :: Returned s3 :: Returned f
            :: more_terrence)
         (Returned n1 :: Returned n2 :: Returned n3 :: more_neil)) in
  status res = COMPLETED /\ rounds res = 3 /\
  List.length (turns res) = 7%nat /\ final_answer res = Some a.
Proof.
  intros Hmr H1 H2 H3 A1 A2 A3 Hf Ha res. subst res.
  unfold debate, debate_run, debate_try, range.
  destruct (Z.to_nat max_rounds) as [|[|[|k]]] eqn:Ek; try lia.
  cbn [seq map for_rounds].
  run_body. rewrite H1. run_body. rewrite A1.
  destruct (Z.of_nat 0 <? max_rounds - 1).
  all: run_body; rewrite H2; run_body; rewrite A2.
  all: destruct (Z.of_nat 1 <? max_rounds - 1).
  all: run_body; rewrite H3; run_body; rewrite A3.
  all: run_body; rewrite Hf.
  all: destruct a as [|c a]; [congruence|].
  all: cbn; repeat split; reflexivity.
Qed.

(** C1 as stated fails on the code.  After Neil's agreement Terrence
    answers with an empty finalization tag: the extracted final answer
    is present (the empty string), and the status is ERROR, not
    COMPLETED with that answer. *)
Lemma present_empty_answer_is_not_completed :
  turns (Scripted.agreed_then "<FINAL></FINAL>")
    = [solver_turn "I calculate 2 + 3 = 5";
       critic_turn "<AGREE>true</AGREE> Correct.";
       solver_turn "<FINAL></FINAL>"] /\
  agreement_flag (critic_turn "<AGREE>true</AGREE> Correct.") = Some true /\
  _extract_final_answer "<FINAL></FINAL>" = Some "" /\
  ~ (forall a, _extract_final_answer "<FINAL></FINAL>" = Some a ->
       status (Scripted.agreed_then "<FINAL></FINAL>") = COMPLETED /\
       final_answer (Scripted.agreed_then "<FINAL></FINAL>") = Some a).
Proof.
  repeat split; try reflexivity.
  intro H. destruct (H "" eq_refl) as [C _]. vm_compute in C. discriminate.
Qed.

(** An instance: Neil agrees at once and Terrence answers with a
    tagged 5. *)
Lemma finalization_after_agreement_witness :
  turns (Scripted.agreed_then "<FINAL>5</FINAL>")
    = ([solver_turn "I calculate 2 + 3 = 5"]
       ++ critic_turn "<AGREE>true</AGREE> Correct."
       :: [solver_turn "<FINAL>5</FINAL>"])%list /\
  speaker (critic_turn "<AGREE>true</AGREE> Correct.") = "Neil" /\
  agreement_flag (critic_turn "<AGREE>true</AGREE> Correct.") = Some true /\
  status (Scripted.agreed_then "<FINAL>5</FINAL>") = COMPLETED /\
  final_answer (Scripted.agreed_then "<FINAL>5</FINAL>") = Some "5".
Proof.
  unfold Scripted.agreed_then, Scripted.run.
  assert (H1 : turns (debate Scripted.env Scripted.templates Scripted.settings
                        "2 + 3" (Some 2) Config.slow
                        (Scripted.agreed_world "<FINAL>5</FINAL>"))
               = ([solver_turn "I calculate 2 + 3 = 5"]
                  ++ critic_turn "<AGREE>true</AGREE> Correct."
                  :: [solver_turn "<FINAL>5</FINAL>"])%list)
    by (vm_compute; reflexivity).
  assert (H2 : speaker (critic_turn "<AGREE>true</AGREE> Correct.") = "Neil")
    by reflexivity.
  assert (H3 : agreement_flag (critic_turn "<AGREE>true</AGREE> Correct.")
               = Some true) by (vm_compute; reflexivity).
  split; [exact H1 | split; [exact H2 | split; [exact H3 |]]].
  destruct (finalization_after_agreement
              Scripted.env Scripted.templates Scripted.settings
              "2 + 3" (Some 2) Config.slow
              (Scripted.agreed_world "<FINAL>5</FINAL>")
              [solver_turn "I calculate 2 + 3 = 5"]
              [solver_turn "<FINAL>5</FINAL>"]
              (critic_turn "<AGREE>true</AGREE> Correct.") H1 H2 H3)
    as (before & s & w0 & wn & w' & [f|e] & _ & _ & _ & H).
  - destruct H as (Ef & _ & Hdone & _).
    injection Ef as Ef. apply (Hdone "5").
    + rewrite <- Ef. vm_compute. reflexivity.
    + discriminate.
  - destruct H as (C & _). discriminate C.
Defined.

(** An instance: two rounds in which Neil refuses. *)
Lemma exhausted_budget_is_timeout_witness :
  rounds_exhausted Scripted.env Scripted.templates Scripted.settings
    "2 + 3" (Some 2) Config.slow Scripted.never_agrees_world = true /\
  status (debate Scripted.env Scripted.templates Scripted.settings
            "2 + 3" (Some 2) Config.slow Scripted.never_agrees_world)
    = TIMEOUT /\
  final_answer (debate Scripted.env Scripted.templates Scripted.settings
                  "2 + 3" (Some 2) Config.slow Scripted.never_agrees_world)
    = None /\
  error_message (debate Scripted.env Scripted.templates Scripted.settings
                   "2 + 3" (Some 2) Config.slow Scripted.never_agrees_world)
    = Some "Debate did not reach agreement within 2 rounds".
Proof.
  split; [reflexivity|].
  apply (exhausted_budget_is_timeout
           Scripted.env Scripted.templates Scripted.settings
           "2 + 3" (Some 2) Config.slow Scripted.never_agrees_world).
  reflexivity.
Defined.

(** C5 as stated fails on the code.  In the run with refusals in
    rounds 1 and 2, agreement in round 3 and a tagged final answer,
    seven turns are recorded, not five. *)
Lemma three_rounds_record_seven_turns :
  status Scripted.three_rounds = COMPLETED /\
  rounds Scripted.three_rounds = 3 /\
  final_answer Scripted.three_rounds = Some "5" /\
  map agreement_flag (turns Scripted.three_rounds)
    = [None; Some false; None; Some false; None; Some true; None] /\
  List.length (turns Scripted.three_rounds) <> 5%nat.
Proof. repeat split; try reflexivity. vm_compute. discriminate. Qed.

(** An instance: the run [Scripted.three_rounds]. *)
Lemma three_round_agreement_witness :
  3 <= 5 /\
  _extract_final_answer "I need to calculate 2 + 3 = 5" = None /\
  _extract_final_answer "2 + 3 means adding 2 and 3, which equals 5" = None /\
  _extract_final_answer "Counting on from 2 by 3 gives 5" = None /\
  _extract_agreement "<AGREE>false</AGREE> Can you show the steps?"
    = Some false /\
  _extract_agreement "<AGREE>false</AGREE> I am not convinced yet."
    = Some false /\
  _extract_agreement "<AGREE>true</AGREE> Yes, that is correct." = Some true /\
  _extract_final_answer "<FINAL>5</FINAL>" = Some "5" /\
  "5" <> "" /\
  status Scripted.three_rounds = COMPLETED /\
  rounds Scripted.three_rounds = 3 /\
  List.length (turns Scripted.three_rounds) = 7%nat /\
  final_answer Scripted.three_rounds = Some "5".
Proof.
  repeat (split; [first [reflexivity | lia | discriminate]|]).
  apply (three_round_agreement
           Scripted.templates Scripted.settings "2 + 3" 5 Config.slow
           "I need to calculate 2 + 3 = 5"
           "2 + 3 means adding 2 and 3, which equals 5"
           "Counting on from 2 by 3 gives 5"
           "<AGREE>false</AGREE> Can you show the steps?"
           "<AGREE>false</AGREE> I am not convinced yet."
           "<AGREE>true</AGREE> Yes, that is correct."
           "<FINAL>5</FINAL>" "5" [] []);
    first [reflexivity | lia | discriminate].
Defined.

(** C6 as stated fails on the code.  Terrence's first response holds a
    finalization tag with nothing inside: a final-answer signal is
    there, yet the round goes on with Neil's turn and the debate does
    not complete. *)
Lemma empty_early_tag_is_not_completion :
  _extract_final_answer "<FINAL></FINAL>" = Some "" /\
  turns Scripted.empty_tag_first
    = [solver_turn "<FINAL></FINAL>";
       critic_turn "<AGREE>false</AGREE> That is no answer."] /\
  status Scripted.empty_tag_first = TIMEOUT /\
  ~ (turns Scripted.empty_tag_first = [solver_turn "<FINAL></FINAL>"] /\
     status Scripted.empty_tag_first = COMPLETED /\
     final_answer Scripted.empty_tag_first = Some "").
Proof.
  repeat split; try reflexivity.
  intros (_ & C & _). vm_compute in C. discriminate.
Qed.

(** An instance: Terrence opens with a tagged 5. *)
Lemma early_final_answer_completes_witness :
  turns Scripted.answer_first
    = ([] ++ solver_turn "The answer is <FINAL>5</FINAL>" :: [])%list /\
  speaker (solver_turn "The answer is <FINAL>5</FINAL>") = "Terrence" /\
  Forall (fun t' => agreement_flag t' <> Some true) [] /\
  _extract_final_answer (content (solver_turn "The answer is <FINAL>5</FINAL>"))
    = Some "5" /\
  "5" <> "" /\
  @nil DebateTurn = [] /\
  status Scripted.answer_first = COMPLETED /\
  final_answer Scripted.answer_first = Some "5".
Proof.
  repeat (split; [first [reflexivity | constructor | discriminate]|]).
  apply (early_final_answer_completes
           Scripted.env Scripted.templates Scripted.settings
           "2 + 3" (Some 2) Config.slow Scripted.answer_first_world
           [] [] (solver_turn "The answer is <FINAL>5</FINAL>") "5");
    first [reflexivity | constructor | discriminate].
Defined.

(** C7 as stated fails on the code.  With a round budget of -1 the
    loop does not run, the rounds completed stay 0, and 0 is not at
    most -1. *)
Lemma negative_budget_exceeded :
  rounds Scripted.negative_budget = 0 /\
  ~ (rounds Scripted.negative_budget <= -1).
Proof. split; [reflexivity|]. vm_compute. intro H; apply H; reflexivity. Qed.

(** An instance: Neil agrees at once and Terrence finalizes. *)
Lemma no_critic_turn_after_agreement_witness :
  turns (Scripted.agreed_then "<FINAL>5</FINAL>")
    = ([solver_turn "I calculate 2 + 3 = 5"]
       ++ critic_turn "<AGREE>true</AGREE> Correct."
       :: [solver_turn "<FINAL>5</FINAL>"])%list /\
  speaker (critic_turn "<AGREE>true</AGREE> Correct.") = "Neil" /\
  agreement_flag (critic_turn "<AGREE>true</AGREE> Correct.") = Some true /\
  Forall (fun t' => speaker t' <> "Neil") [solver_turn "<FINAL>5</FINAL>"] /\
  Forall (fun t' => agreement_flag t' <> Some true)
         ([solver_turn "I calculate 2 + 3 = 5"]
            ++ [solver_turn "<FINAL>5</FINAL>"])%list /\
  ([solver_turn "<FINAL>5</FINAL>"] = [] \/
   exists f, [solver_turn "<FINAL>5</FINAL>"] = [solver_turn f]).
Proof.
  repeat (split; [reflexivity|]).
  apply (no_critic_turn_after_agreement
           Scripted.env Scripted.templates Scripted.settings
           "2 + 3" (Some 2) Config.slow
           (Scripted.agreed_world "<FINAL>5</FINAL>")
           [solver_turn "I calculate 2 + 3 = 5"]
           [solver_turn "<FINAL>5</FINAL>"]
           (critic_turn "<AGREE>true</AGREE> Correct."));
    reflexivity.
Defined.

(** An instance: after agreement Terrence answers with a tag around
    blanks. *)
Lemma empty_final_answer_is_error_witness :
  turns (Scripted.agreed_then "<FINAL>   </FINAL>")
    = ([solver_turn "I calculate 2 + 3 = 5"]
       ++ [critic_turn "<AGREE>true</AGREE> Correct.";
           solver_turn "<FINAL>   </FINAL>"])%list /\
  speaker (critic_turn "<AGREE>true</AGREE> Correct.") = "Neil" /\
  agreement_flag (critic_turn "<AGREE>true</AGREE> Correct.") = Some true /\
  _extract_final_answer (content (solver_turn "<FINAL>   </FINAL>"))
    = Some "" /\
  status (Scripted.agreed_then "<FINAL>   </FINAL>") = ERROR /\
  error_message (Scripted.agreed_then "<FINAL>   </FINAL>")
    = Some "Terrence failed to provide final answer after agreement" /\
  final_answer (Scripted.agreed_then "<FINAL>   </FINAL>") = None /\
  _extract_final_answer "<FINAL></FINAL>" = Some "" /\
  _extract_final_answer "<FINAL>   </FINAL>" = Some "".
Proof.
  repeat (split; [reflexivity|]).
  apply (empty_final_answer_is_error
           Scripted.env Scripted.templates Scripted.settings
           "2 + 3" (Some 2) Config.slow
           (Scripted.agreed_world "<FINAL>   </FINAL>")
           [solver_turn "I calculate 2 + 3 = 5"]
           (critic_turn "<AGREE>true</AGREE> Correct.")
           (solver_turn "<FINAL>   </FINAL>")); reflexivity.
Defined.

(** * Further properties of the code *)

Section ResultFacts.
Context {World : Type}.
Variable env : Collaborators World.
Variable T : Prompts.Templates.
Variable settings : Config.Settings.
Variable expression : string.
Variable max_rounds : option Z.
Variable pace : Config.PaceMode.
Variable w : World.

Local Notation "'the_result'" :=
  (debate env T settings expression max_rounds pace w).

Lemma extracted_answer_tight (s a : string) :
  _extract_final_answer s = Some a -> Spec.tight a.
Proof.
  unfold _extract_final_answer.
  destruct (Re.search Re.FINAL_TAG_at s) as [g|]; [|discriminate].
  intros [= <-]. destruct (strip_trimmed g) as (l & r & _ & _ & _ & Ht).
  exact Ht.
Qed.

Lemma truthy_answer (o : option string) :
  Text.truthy_opt o = true <-> exists a, o = Some a /\ a <> "".
Proof.
  destruct o as [[|c a]|]; cbn; split; try discriminate.
  - intros (a & [= <-] & H); congruence.
  - intros _. eexists; split; [reflexivity | discriminate].
  - reflexivity.
  - intros (a & H & _); discriminate.
Qed.

(** X1.  The result a debate returns is in a terminal status
    (COMPLETED, ERROR or TIMEOUT, never NOT_STARTED or IN_PROGRESS);
    it holds a final answer exactly when the status is COMPLETED, and
    an error message exactly when it is not. *)
Theorem result_status_is_terminal :
  let res := debate env T settings expression max_rounds pace w in
  (status res = COMPLETED \/ status res = ERROR \/ status res = TIMEOUT) /\
  (status res = COMPLETED <-> final_answer res <> None) /\
  (status res = COMPLETED <-> error_message res = None).
Proof.
  cbv zeta.
  destruct (debate_outcome env T settings expression max_rounds pace w)
    as (xs & x & _ & Hok & _ & ->).
  unfold outcome_of; cbn [status final_answer error_message].
  destruct x as [|e|s|s e|s n e|s n f]; cbn in Hok |- *;
    try (repeat split; (auto || discriminate || congruence)).
  - apply truthy_answer in Hok. destruct Hok as (a & -> & _).
    repeat split; (auto || discriminate || congruence).
  - destruct (Text.truthy_opt (_extract_final_answer f)) eqn:E.
    + apply truthy_answer in E. destruct E as (a & -> & _).
      repeat split; (auto || discriminate || congruence).
    + repeat split; (auto || discriminate || congruence).
Qed.

(** X2.  The final answer of a COMPLETED debate is the answer
    extracted from the content of the last recorded turn, which is a
    turn of Terrence; it is not empty and has no white space at its
    ends. *)
Theorem completed_answer_comes_from_last_turn :
  status the_result = COMPLETED ->
  exists pre last a,
    turns the_result = (pre ++ [last])%list /\
    speaker last = "Terrence" /\
    _extract_final_answer (content last) = Some a /\
    final_answer the_result = Some a /\
    a <> "" /\ Spec.tight a.
Proof.
  destruct (debate_outcome env T settings expression max_rounds pace w)
    as (xs & x & _ & Hok & _ & ->).
  unfold outcome_of; cbn [status final_answer turns].
  destruct x as [|e|s|s e|s n e|s n f]; cbn in Hok |- *; try discriminate.
  - intros _. apply truthy_answer in Hok. destruct Hok as (a & Ha & Hne).
    exists (flat_map exchange_turns xs), (solver_turn s), a.
    repeat split; auto; apply (extracted_answer_tight s a Ha).
  - destruct (Text.truthy_opt (_extract_final_answer f)) eqn:E; [|discriminate].
    intros _. apply truthy_answer in E. destruct E as (a & Ha & Hne).
    exists (flat_map exchange_turns xs ++ [solver_turn s; critic_turn n])%list,
      (solver_turn f), a.
    repeat split; auto; try apply (extracted_answer_tight f a Ha).
    rewrite <- app_assoc. reflexivity.
Qed.

Lemma alternate_exchanges (xs : list Exchange) (tail : list DebateTurn) :
  (forall i t, nth_error tail i = Some t ->
     if Nat.even i then t = solver_turn (content t)
     else t = critic_turn (content t)) ->
  forall i t, nth_error (flat_map exchange_turns xs ++ tail)%list i = Some t ->
    if Nat.even i then t = solver_turn (content t)
    else t = critic_turn (content t).
Proof.
  intro Htail. induction xs as [|[s n] xs IH]; [exact Htail|].
  intros [|[|i]] t; cbn.
  - intros [= <-]; reflexivity.
  - intros [= <-]; reflexivity.
  - intro H. apply (IH i t H).
Qed.

(** X3.  The recorded turns alternate, Terrence first: a turn at an
    even position is Terrence's, with no agreement flag, a turn at an
    odd position is Neil's, with the flag extracted from its content;
    each carries the word count of its content. *)
Theorem turns_alternate (i : nat) (t : DebateTurn) :
  nth_error (turns the_result) i = Some t ->
  if Nat.even i then t = solver_turn (content t)
  else t = critic_turn (content t).
Proof.
  destruct (debate_outcome env T settings expression max_rounds pace w)
    as (xs & x & _ & _ & _ & ->).
  unfold outcome_of; cbn [turns]. revert i t.
  apply alternate_exchanges.
  intros i t. destruct x as [|e|s|s e|s n e|s n f]; cbn;
    destruct i as [|[|[|i]]]; cbn; try discriminate;
    try (destruct i; discriminate); intros [= <-]; reflexivity.
Qed.

(** X4.  The recorded turns number between [2 * rounds - 2] and
    [2 * rounds + 1]; a TIMEOUT result has exactly two turns per round
    and a COMPLETED result an odd number of turns. *)
Theorem turn_count_follows_rounds :
  let res := debate env T settings expression max_rounds pace w in
  2 * rounds res - 2 <= Z.of_nat (List.length (turns res))
    <= 2 * rounds res + 1 /\
  (status res = TIMEOUT ->
   Z.of_nat (List.length (turns res)) = 2 * rounds res) /\
  (status res = COMPLETED -> Nat.odd (List.length (turns res)) = true).
Proof.
  cbv zeta.
  destruct (debate_outcome env T settings expression max_rounds pace w)
    as (xs & x & _ & _ & _ & ->).
  unfold outcome_of; cbn [turns rounds status].
  rewrite length_app, exchange_turns_length.
  destruct x as [|e|s|s e|s n e|s n f]; cbn [ending_turns ending_rounds
    ending_status List.length]; repeat split; try lia; try discriminate.
  - intros _. rewrite Nat.add_1_r, Nat.odd_succ, Nat.even_mul. reflexivity.
  - destruct (Text.truthy_opt (_extract_final_answer f)); discriminate.
  - intros _. replace (2 * List.length xs + 3)%nat
      with (S (2 * (List.length xs + 1)))%nat by lia.
    rewrite Nat.odd_succ, Nat.even_mul. reflexivity.
Qed.

End ResultFacts.

(** An instance: the two-round run in which Neil agrees at once. *)
Lemma completed_answer_comes_from_last_turn_witness :
  status (debate Scripted.env Scripted.templates Scripted.settings
            "2 + 3" (Some 2) Config.slow
            (Scripted.agreed_world "<FINAL>5</FINAL>")) = COMPLETED /\
  exists pre last a,
    turns (debate Scripted.env Scripted.templates Scripted.settings
             "2 + 3" (Some 2) Config.slow
             (Scripted.agreed_world "<FINAL>5</FINAL>"))
      = (pre ++ [last])%list /\
    speaker last = "Terrence" /\
    _extract_final_answer (content last) = Some a /\
    final_answer (debate Scripted.env Scripted.templates Scripted.settings
                    "2 + 3" (Some 2) Config.slow
                    (Scripted.agreed_world "<FINAL>5</FINAL>")) = Some a /\
    a <> "" /\ Spec.tight a.
Proof.
  assert (H : status (debate Scripted.env Scripted.templates Scripted.settings
                        "2 + 3" (Some 2) Config.slow
                        (Scripted.agreed_world "<FINAL>5</FINAL>"))
              = COMPLETED) by (vm_compute; reflexivity).
  split; [exact H|].
  exact (completed_answer_comes_from_last_turn
           Scripted.env Scripted.templates Scripted.settings
           "2 + 3" (Some 2) Config.slow
           (Scripted.agreed_world "<FINAL>5</FINAL>") H).
Defined.

(** An instance: the second turn of that run is Neil's. *)
Lemma turns_alternate_witness :
  nth_error (turns (debate Scripted.env Scripted.templates Scripted.settings
                      "2 + 3" (Some 2) Config.slow
                      (Scripted.agreed_world "<FINAL>5</FINAL>"))) 1
    = Some (critic_turn "<AGREE>true</AGREE> Correct.") /\
  critic_turn "<AGREE>true</AGREE> Correct."
    = critic_turn (content (critic_turn "<AGREE>true</AGREE> Correct.")).
Proof.
  assert (H : nth_error
                (turns (debate Scripted.env Scripted.templates
                          Scripted.settings "2 + 3" (Some 2) Config.slow
                          (Scripted.agreed_world "<FINAL>5</FINAL>"))) 1
              = Some (critic_turn "<AGREE>true</AGREE> Correct."))
    by (vm_compute; reflexivity).
  split; [exact H|].
  exact (turns_alternate
           Scripted.env Scripted.templates Scripted.settings
           "2 + 3" (Some 2) Config.slow
           (Scripted.agreed_world "<FINAL>5</FINAL>")
           1%nat (critic_turn "<AGREE>true</AGREE> Correct.") H).
Defined.

(** An instance: that run is completed, with three turns. *)
Lemma turn_count_follows_rounds_witness :
  status (debate Scripted.env Scripted.templates Scripted.settings
            "2 + 3" (Some 2) Config.slow
            (Scripted.agreed_world "<FINAL>5</FINAL>")) = COMPLETED /\
  Nat.odd (List.length
             (turns (debate Scripted.env Scripted.templates Scripted.settings
                       "2 + 3" (Some 2) Config.slow
                       (Scripted.agreed_world "<FINAL>5</FINAL>")))) = true.
Proof.
  assert (H : status (debate Scripted.env Scripted.templates Scripted.settings
                        "2 + 3" (Some 2) Config.slow
                        (Scripted.agreed_world "<FINAL>5</FINAL>"))
              = COMPLETED) by (vm_compute; reflexivity).
  split; [exact H|].
  exact (proj2 (proj2 (turn_count_follows_rounds
                         Scripted.env Scripted.templates Scripted.settings
                         "2 + 3" (Some 2) Config.slow
                         (Scripted.agreed_world "<FINAL>5</FINAL>"))) H).
Defined.

Section EdgeRuns.
Context {World : Type}.
Variable env : Collaborators World.
Variable T : Prompts.Templates.
Variable settings : Config.Settings.
Variable expression : string.
Variable max_rounds : option Z.
Variable pace : Config.PaceMode.
Variable w : World.

(** X5.  With a round budget of 0 or less the debate calls neither
    client and takes no pacing step: the world of the clients and of
    the pace controller is left as it was (the telemetry log, written
    at the start and the end of every run, is no part of that world),
    and the result is TIMEOUT with 0 rounds, no turns and the budget
    message. *)
Theorem no_rounds_no_calls :
  effective_rounds settings max_rounds <= 0 ->
  debate_run env T settings expression max_rounds pace w =
  mkRun w
    (mkDebateResult TIMEOUT expression None 0 []
       (Some ("Debate did not reach agreement within "
                ++ Text.str_of_int (effective_rounds settings max_rounds)
                ++ " rounds"))
       pace)
    [].
Proof.
  intro H. unfold debate_run, debate_try, range.
  fold (effective_rounds settings max_rounds).
  replace (Z.to_nat (effective_rounds settings max_rounds)) with O by lia.
  reflexivity.
Qed.

(** X6.  When the very first call of Terrence raises, the debate
    stops there: the result is ERROR with the message of the exception,
    no turn is recorded, and [rounds] is 1, the round that was
    begun. *)
Theorem first_call_failure (e : string) (w' : World) :
  1 <= effective_rounds settings max_rounds ->
  _call_terrence env
    (Prompts.get_terrence_messages T expression [])
    (Config.max_tokens_per_turn (Config.get_pacing_profile settings pace))
    (turn_started env "Terrence" w) = (Raised e, w') ->
  debate_run env T settings expression max_rounds pace w =
  mkRun w' (mkDebateResult ERROR expression None 1 [] (Some e) pace) [].
Proof.
  intros H E. unfold debate_run, debate_try, range.
  fold (effective_rounds settings max_rounds).
  destruct (Z.to_nat (effective_rounds settings max_rounds)) as [|k] eqn:Ek;
    [lia|].
  cbn [seq map for_rounds].
  run_body. rewrite E. reflexivity.
Qed.

End EdgeRuns.

Lemma no_rounds_no_calls_witness :
  effective_rounds Scripted.settings (Some 0) <= 0 /\
  debate_run Scripted.env Scripted.templates Scripted.settings "2 + 3"
    (Some 0) Config.fast Scripted.never_agrees_world =
  mkRun Scripted.never_agrees_world
    (mkDebateResult TIMEOUT "2 + 3" None 0 []
       (Some ("Debate did not reach agreement within "
                ++ Text.str_of_int (effective_rounds Scripted.settings (Some 0))
                ++ " rounds"))
       Config.fast)
    [].
Proof.
  split; [vm_compute; discriminate|].
  apply (no_rounds_no_calls Scripted.env Scripted.templates Scripted.settings
           "2 + 3" (Some 0) Config.fast Scripted.never_agrees_world).
  vm_compute; discriminate.
Defined.

Lemma first_call_failure_witness :
  1 <= effective_rounds Scripted.settings None /\
  _call_terrence Scripted.env
    (Prompts.get_terrence_messages Scripted.templates "2 + 3" [])
    (Config.max_tokens_per_turn
       (Config.get_pacing_profile Scripted.settings Config.slow))
    (turn_started Scripted.env "Terrence"
       (Scripted.mkWorld [Raised "rate limit"] []))
    = (Raised "rate limit", Scripted.mkWorld [] []) /\
  debate_run Scripted.env Scripted.templates Scripted.settings "2 + 3"
    None Config.slow (Scripted.mkWorld [Raised "rate limit"] []) =
  mkRun (Scripted.mkWorld [] [])
    (mkDebateResult ERROR "2 + 3" None 1 [] (Some "rate limit") Config.slow)
    [].
Proof.
  split; [vm_compute; discriminate|]. split; [reflexivity|].
  apply (first_call_failure Scripted.env Scripted.templates Scripted.settings
           "2 + 3" None Config.slow (Scripted.mkWorld [Raised "rate limit"] [])
           "rate limit" (Scripted.mkWorld [] []));
    [vm_compute; discriminate | reflexivity].
Defined.



Section CallCounts.
Context {W : Type}.
Variable e : Collaborators W.
Variable T : Prompts.Templates.
Variable expression : string.
Variable max_rounds : Z.
Variable pp : Config.PacingProfile.

Local Notation "'calls_T' st" := (Counted.terrence_calls (world st))
  (at level 9).
Local Notation "'calls_N' st" := (Counted.neil_calls (world st))
  (at level 9).
Local Notation "'recorded' st" := (List.length (turns (result st)))
  (at level 9).

Lemma counted_finalization (tm : list Prompts.Message) (n : string)
    (st st' : Run (Counted.World W)) (o : Outcome LoopCtl) :
  finalization (Counted.env e) pp tm n st = (o, st') ->
  o <> Returned Continue /\
  calls_T st' = S (calls_T st) /\ calls_N st' = calls_N st /\
  rounds (result st') = rounds (result st) /\
  (recorded st' = recorded st \/ recorded st' = S (recorded st)) /\
  (forall c, o = Returned c -> recorded st' = S (recorded st)).
Proof.
  unfold finalization, gap, bind, on_world, modify_result, ret.
  rewrite execute_turn_run. cbn [world result conversation_history].
  cbn [Counted.env _call_terrence turn_started turn_padding inter_turn_gap
       Counted.inner Counted.terrence_calls Counted.neil_calls].
  destruct (_call_terrence e _ _ _) as [[f|x] w'].
  - destruct (Text.truthy_opt (_extract_final_answer f));
      intros [= <- <-]; cbn; rewrite length_app; cbn;
      repeat split; try discriminate; try lia.
  - intros [= <- <-]; cbn. repeat split; try discriminate; auto.
Qed.

Lemma counted_critic_part (round_num : Z) (tm : list Prompts.Message)
    (s : string) (st st' : Run (Counted.World W)) (o : Outcome LoopCtl) :
  critic_part (Counted.env e) T max_rounds pp round_num tm s st = (o, st') ->
  rounds (result st') = rounds (result st) /\
  ((o = Returned Continue /\
    calls_T st' = calls_T st /\ calls_N st' = S (calls_N st) /\
    recorded st' = S (recorded st)) \/
   (o <> Returned Continue /\
    calls_N st' = S (calls_N st) /\
    ((calls_T st' = calls_T st /\ recorded st' = recorded st) \/
     (calls_T st' = S (calls_T st) /\
      (recorded st' = S (recorded st) \/ recorded st' = S (S (recorded st))))))).
Proof.
  unfold critic_part, gap.
  unfold bind at 1. unfold on_world at 1.
  unfold bind at 1. unfold get_history at 1.
  cbn [world result conversation_history].
  unfold bind at 1. rewrite execute_turn_run.
  cbn [world result conversation_history].
  cbn [Counted.env _call_neil turn_started turn_padding inter_turn_gap
       Counted.inner Counted.terrence_calls Counted.neil_calls].
  destruct (_call_neil e _ _ _) as [[n|x] w'].
  - unfold bind at 1. unfold modify_result at 1.
    unfold bind at 1. unfold extend_history at 1.
    cbn [world result conversation_history].
    change (mkDebateTurn "Neil" n (_extract_agreement n) (Text.split_len n))
      with (critic_turn n).
    destruct (_extract_agreement n) as [[|]|]; cbv beta iota.
    + intro H. apply counted_finalization in H.
      cbn [world result Counted.terrence_calls Counted.neil_calls] in H.
      destruct H as (Ho & HT & HN & HR & HU & _).
      cbn [append_turn turns rounds] in HU, HR. rewrite length_app in HU.
      cbn [List.length] in HU.
      split; [exact HR|]. right. repeat split; auto.
      right. split; [exact HT|]. lia.
    + unfold bind, on_world, ret.
      destruct (round_num <? max_rounds - 1); intros [= <- <-]; cbn;
        rewrite length_app; cbn; split; auto; left; repeat split; lia.
    + unfold bind, on_world, ret.
      destruct (round_num <? max_rounds - 1); intros [= <- <-]; cbn;
        rewrite length_app; cbn; split; auto; left; repeat split; lia.
  - intros [= <- <-]; cbn. split; auto. right.
    repeat split; try discriminate; auto.
Qed.

(** One pass through the loop body: the calls it makes against the
    turns it records. *)
Lemma counted_round (round_num : Z) (st st' : Run (Counted.World W))
    (o : Outcome LoopCtl) :
  round (Counted.env e) T expression max_rounds pp round_num st = (o, st') ->
  rounds (result st') = round_num + 1 /\
  ((o = Returned Continue /\
    calls_T st' = S (calls_T st) /\ calls_N st' = S (calls_N st) /\
    recorded st' = S (S (recorded st))) \/
   (o <> Returned Continue /\
    exists dT dN dU : nat,
      calls_T st' = (calls_T st + dT)%nat /\
      calls_N st' = (calls_N st + dN)%nat /\
      recorded st' = (recorded st + dU)%nat /\
      (1 <= dT <= 2)%nat /\ (dN <= 1)%nat /\ (dN <= dT <= dN + 1)%nat /\
      (dU <= dT + dN <= dU + 1)%nat)).
Proof.
  unfold round.
  unfold bind at 1. unfold modify_result at 1.
  unfold bind at 1. unfold get_history at 1.
  cbn [world result conversation_history].
  unfold bind at 1. rewrite execute_turn_run.
  cbn [world result conversation_history].
  cbn [Counted.env _call_terrence turn_started turn_padding inter_turn_gap
       Counted.inner Counted.terrence_calls Counted.neil_calls].
  destruct (_call_terrence e _ _ _) as [[s|x] w'].
  - unfold bind at 1. unfold modify_result at 1.
    unfold bind at 1. unfold extend_history at 1.
    cbn [world result conversation_history].
    destruct (Text.truthy_opt (_extract_final_answer s)); cbv beta iota.
    + unfold bind, modify_result, ret. cbn [world result conversation_history].
      intros [= <- <-]. cbn. rewrite length_app; cbn. split; auto.
      right. split; [discriminate|]. exists 1%nat, 0%nat, 1%nat.
      repeat split; lia.
    + intro H. apply counted_critic_part in H.
      cbn [world result Counted.terrence_calls Counted.neil_calls] in H.
      cbn [append_turn set_rounds turns rounds] in H.
      rewrite length_app in H. cbn [List.length] in H.
      destruct H as (HR & [(-> & HT & HN & HU)
                          | (Ho & HN & [(HT & HU) | (HT & HU)])]).
      * split; auto. left. repeat split; auto; lia.
      * split; auto. right. split; auto. exists 1%nat, 1%nat, 1%nat.
        repeat split; lia.
      * split; auto. right. split; auto.
        destruct HU as [HU | HU].
        -- exists 2%nat, 1%nat, 2%nat. repeat split; lia.
        -- exists 2%nat, 1%nat, 3%nat. repeat split; lia.
  - intros [= <- <-]. cbn. split; auto. right. split; [discriminate|].
    exists 1%nat, 0%nat, 0%nat. repeat split; lia.
Qed.

Lemma counted_loop (m : nat) :
  forall (k : nat) (st st' : Run (Counted.World W)) (o : Outcome unit),
    calls_T st = k -> calls_N st = k -> recorded st = (2 * k)%nat ->
    rounds (result st) = Z.of_nat k ->
    for_rounds (round (Counted.env e) T expression max_rounds pp)
               (map Z.of_nat (seq k m)) st = (o, st') ->
    balanced (k + m) st'.
Proof.
  induction m as [|m IH]; intros k st st' o HT HN HU HR.
  - cbn. intros [= <- <-]. unfold balanced. rewrite HR. lia.
  - cbn [seq map for_rounds]. unfold bind at 1.
    destruct (round (Counted.env e) T expression max_rounds pp
                    (Z.of_nat k) st) as [o1 st1] eqn:E.
    apply counted_round in E.
    destruct E as (HR1 & [(-> & HT1 & HN1 & HU1)
                         | (Ho & dT & dN & dU & HT1 & HN1 & HU1 & B1 & B0 & B2 & B3)]).
    + intro H. apply (IH (S k)) in H; try lia.
      unfold balanced in *. replace (k + S m)%nat with (S k + m)%nat by lia.
      exact H.
    + intro H.
      assert (Hst : st' = st1).
      { destruct o1 as [[|]|x]; [congruence| |]; injection H as _ <-;
          reflexivity. }
      subst st'. unfold balanced. rewrite HR1. lia.
Qed.

End CallCounts.

Section CallBudget.
Context {W : Type}.
Variable e : Collaborators W.
Variable T : Prompts.Templates.
Variable settings : Config.Settings.
Variable expression : string.
Variable max_rounds : option Z.
Variable pace : Config.PaceMode.
Variable w : W.

Local Notation "'final_state'" :=
  (debate_run (Counted.env e) T settings expression max_rounds pace
              (Counted.start w)).

Lemma counted_run_balanced :
  balanced (Z.to_nat (effective_rounds settings max_rounds)) final_state.
Proof.
  unfold debate_run, debate_try, range.
  fold (effective_rounds settings max_rounds).
  set (n := effective_rounds settings max_rounds).
  cbv zeta. unfold bind at 1.
  destruct (for_rounds _ _ _) as [o st'] eqn:E.
  apply (counted_loop e T expression n _ (Z.to_nat n) 0%nat) in E;
    try reflexivity.
  cbn [Nat.add] in E. unfold balanced in *.
  destruct st' as [[wi cT cN] r h].
  cbn [world result Counted.terrence_calls Counted.neil_calls] in E.
  destruct o as [[]|x].
  - unfold bind, get_result, modify_result, ret.
    cbn [world result conversation_history].
    destruct (status_eqb (status r) IN_PROGRESS); exact E.
  - exact E.
Qed.

End CallBudget.

Section Transparent.
Context {W : Type}.
Variable e : Collaborators W.
Variable T : Prompts.Templates.
Variable expression : string.
Variable max_rounds : Z.
Variable pp : Config.PacingProfile.

Lemma uncounted_round (round_num : Z) (st : Run (Counted.World W)) :
  round e T expression max_rounds pp round_num (uncounted st) =
  (fst (round (Counted.env e) T expression max_rounds pp round_num st),
   uncounted (snd (round (Counted.env e) T expression max_rounds pp
                         round_num st))).
Proof.
  unfold uncounted.
  cbv beta iota zeta delta
    [round critic_part finalization execute_turn gap bind call
     on_world modify_result get_history get_result extend_history ret].
  cbn [world result conversation_history
       Counted.env _call_terrence _call_neil turn_started turn_padding
       inter_turn_gap Counted.inner Counted.terrence_calls Counted.neil_calls].
  destruct (_call_terrence e _ _ _) as [[s|x] w1]; [|reflexivity].
  cbn [world result conversation_history Counted.inner fst snd].
  destruct (Text.truthy_opt (_extract_final_answer s)); [reflexivity|].
  cbn [world result conversation_history Counted.inner fst snd].
  destruct (_call_neil e _ _ _) as [[n|x] w2]; [|reflexivity].
  cbn [world result conversation_history Counted.inner fst snd].
  destruct (_extract_agreement n) as [[|]|].
  - cbn [world result conversation_history Counted.inner fst snd].
    destruct (_call_terrence e _ _ _) as [[f|x] w3]; [|reflexivity].
    cbn [world result conversation_history Counted.inner fst snd].
    destruct (Text.truthy_opt (_extract_final_answer f)); reflexivity.
  - destruct (round_num <? max_rounds - 1); reflexivity.
  - destruct (round_num <? max_rounds - 1); reflexivity.
Qed.

Lemma uncounted_loop (rs : list Z) :
  forall st : Run (Counted.World W),
    for_rounds (round e T expression max_rounds pp) rs (uncounted st) =
    (fst (for_rounds (round (Counted.env e) T expression max_rounds pp) rs st),
     uncounted
       (snd (for_rounds (round (Counted.env e) T expression max_rounds pp)
                        rs st))).
Proof.
  induction rs as [|r rs IH]; intro st; [reflexivity|].
  cbn [for_rounds]. unfold bind. rewrite uncounted_round.
  destruct (round (Counted.env e) T expression max_rounds pp r st)
    as [[[|]|x] st1]; cbn [fst snd]; try reflexivity.
  apply IH.
Qed.

Lemma uncounted_try (st : Run (Counted.World W)) :
  debate_try e T expression max_rounds pp (uncounted st) =
  (fst (debate_try (Counted.env e) T expression max_rounds pp st),
   uncounted (snd (debate_try (Counted.env e) T expression max_rounds pp st))).
Proof.
  unfold debate_try, bind. rewrite uncounted_loop.
  destruct (for_rounds _ _ st) as [[[]|x] st1]; cbn [fst snd]; [|reflexivity].
  unfold get_result, modify_result, ret, uncounted.
  cbn [world result conversation_history].
  destruct (status_eqb (status (result st1)) IN_PROGRESS); reflexivity.
Qed.

End Transparent.

(** Counting the calls does not change the run. *)
Lemma counting_is_transparent {W : Type} (e : Collaborators W)
    (T : Prompts.Templates) (settings : Config.Settings)
    (expression : string) (max_rounds : option Z) (pace : Config.PaceMode)
    (w : W) :
  uncounted (debate_run (Counted.env e) T settings expression max_rounds pace
                        (Counted.start w))
  = debate_run e T settings expression max_rounds pace w.
Proof.
  unfold debate_run. cbv zeta.
  change (mkRun w (mkDebateResult IN_PROGRESS expression None 0 [] None pace) [])
    with (uncounted (mkRun (Counted.start w)
            (mkDebateResult IN_PROGRESS expression None 0 [] None pace) [])).
  rewrite uncounted_try.
  destruct (debate_try (Counted.env e) _ _ _ _ _) as [[[]|x] st1];
    reflexivity.
Qed.

(** X7.  Run over collaborators that count their calls, a debate is
    the same debate, and on return at most [max_rounds + 1] calls of
    Terrence and at most [max_rounds] calls of Neil have been made
    ([max_rounds] counted as 0 when negative); Terrence has been called
    as often as Neil or once more; and every call but at most one (a
    call that raised) has its turn recorded. *)
Theorem call_budget {W : Type} (e : Collaborators W)
    (T : Prompts.Templates) (settings : Config.Settings)
    (expression : string) (max_rounds : option Z) (pace : Config.PaceMode)
    (w : W) :
  uncounted (debate_run (Counted.env e) T settings expression max_rounds pace
                        (Counted.start w))
    = debate_run e T settings expression max_rounds pace w /\
  balanced (Z.to_nat (effective_rounds settings max_rounds))
           (debate_run (Counted.env e) T settings expression max_rounds pace
                       (Counted.start w)) /\
  (Counted.terrence_calls
     (world (debate_run (Counted.env e) T settings expression max_rounds pace
                        (Counted.start w)))
     <= Z.to_nat (effective_rounds settings max_rounds) + 1)%nat /\
  (Counted.neil_calls
     (world (debate_run (Counted.env e) T settings expression max_rounds pace
                        (Counted.start w)))
     <= Z.to_nat (effective_rounds settings max_rounds))%nat.
Proof.
  split; [apply counting_is_transparent|].
  pose proof (counted_run_balanced e T settings expression max_rounds pace w)
    as B.
  split; [exact B|]. unfold balanced in B. lia.
Qed.

Local Close Scope Z_scope.

Section ExtractorFacts.

Lemma angle_only_matches_angle (c : ascii) :
  Re.ieqb "<" c = true -> c = "<"%char.
Proof.
  destruct c as [[] [] [] [] [] [] [] []]; vm_compute; intro H;
    first [reflexivity | discriminate].
Qed.

Lemma imatch_needs_first (lit s : string) (p x : ascii) :
  Re.ieqb p x = false -> Re.imatch (String p lit) (String x s) = None.
Proof. intro H. cbn. rewrite H. reflexivity. Qed.

Lemma AGREE_TAG_needs_angle (x : ascii) (s : string) :
  Ascii.eqb x "<" = false -> Re.AGREE_TAG_at (String x s) = None.
Proof.
  intro H. unfold Re.AGREE_TAG_at.
  rewrite imatch_needs_first; [reflexivity|].
  destruct (Re.ieqb "<" x) eqn:E; [|reflexivity].
  apply angle_only_matches_angle in E. subst x. discriminate.
Qed.

Lemma FINAL_TAG_needs_angle (x : ascii) (s : string) :
  Ascii.eqb x "<" = false -> Re.FINAL_TAG_at (String x s) = None.
Proof.
  intro H. unfold Re.FINAL_TAG_at.
  rewrite imatch_needs_first; [reflexivity|].
  destruct (Re.ieqb "<" x) eqn:E; [|reflexivity].
  apply angle_only_matches_angle in E. subst x. discriminate.
Qed.

(** A search passes over a stretch in which no attempt can start. *)
Lemma search_skip {A} (f : string -> option A) (pre s : string) :
  (forall x u, Ascii.eqb x "<" = false -> f (String x u) = None) ->
  no_open_angle pre = true ->
  Re.search f (pre ++ s) = Re.search f s.
Proof.
  intros Hf. induction pre as [|x pre IH]; cbn; [reflexivity|].
  intro H. apply andb_true_iff in H. destruct H as [Hx Hpre].
  apply negb_true_iff in Hx. rewrite (Hf _ _ Hx). apply IH, Hpre.
Qed.

Lemma search_here {A} (f : string -> option A) (s : string) (g : A) :
  f s = Some g -> Re.search f s = Some g.
Proof. intro H. destruct s; cbn; rewrite H; reflexivity. Qed.

(** A closing tag cannot start inside a text without angle bracket. *)
Lemma closer_not_inside (close a r g' c' r' : string) :
  no_open_angle a = true ->
  Spec.ci_eq c' (String "<" close) ->
  a ++ r = g' ++ c' ++ r' ->
  (String.length a <= String.length g')%nat.
Proof.
  intros Ha Hc. revert g'. induction a as [|x a IH]; intros g' E; cbn; [lia|].
  cbn in Ha. apply andb_true_iff in Ha. destruct Ha as [Hx Ha].
  destruct g' as [|y g']; cbn in E.
  - exfalso. destruct c' as [|z c']; [discriminate|].
    cbn in E. injection E as <- _.
    unfold Spec.ci_eq in Hc. cbn in Hc. injection Hc as Hz _.
    assert (Hi : Re.ieqb "<" x = true).
    { unfold Re.ieqb. rewrite Hz. apply Ascii.eqb_refl. }
    apply angle_only_matches_angle in Hi. subst x. discriminate.
  - injection E as _ E. cbn. specialize (IH Ha g' E). lia.
Qed.

End ExtractorFacts.

(** X8.  Wrapping and extracting: for a text [a] without opening
    angle bracket, put between a finalization tag's two halves (in any
    letter case) after a text without opening angle bracket and before
    any text at all, the extractor gives back [a] stripped. *)
Theorem final_answer_round_trip (pre o a c post : string) :
  no_open_angle pre = true ->
  no_open_angle a = true ->
  Spec.ci_eq o "<FINAL>" ->
  Spec.ci_eq c "</FINAL>" ->
  _extract_final_answer (pre ++ o ++ a ++ c ++ post) = Some (Text.strip a).
Proof.
  intros Hpre Ha Ho Hc. unfold _extract_final_answer.
  rewrite (search_skip _ _ _ FINAL_TAG_needs_angle Hpre).
  rewrite (search_here _ _ a); [reflexivity|].
  apply FINAL_TAG_at_Some. exists o, c, post. repeat split; auto.
  intros g' c' rest' E Hc'.
  apply (closer_not_inside "/FINAL>" a (c ++ post) g' c' rest' Ha Hc' E).
Qed.

(** X9.  Wrapping and extracting: the token true or false (in any
    letter case) between the two halves of an agreement tag, after a
    text without opening angle bracket and before any text at all, is
    extracted as that flag. *)
Theorem agreement_round_trip (pre o g c post : string) (b : bool) :
  no_open_angle pre = true ->
  Spec.ci_eq o "<AGREE>" ->
  Spec.ci_eq g (Spec.token_of b) ->
  Spec.ci_eq c "</AGREE>" ->
  _extract_agreement (pre ++ o ++ g ++ c ++ post) = Some b.
Proof.
  intros Hpre Ho Hg Hc. unfold _extract_agreement.
  rewrite (search_skip _ _ _ AGREE_TAG_needs_angle Hpre).
  destruct (proj2 (AGREE_TAG_at_iff (o ++ g ++ c ++ post) b)) as (g0 & E & Hb).
  - exists (o ++ g ++ c), post. split.
    + rewrite !app_assoc3; reflexivity.
    + exists o, g, c; auto.
  - rewrite (search_here _ _ g0 E), Hb. reflexivity.
Qed.

Lemma final_answer_round_trip_witness :
  no_open_angle "The answer is " = true /\
  no_open_angle " 14 " = true /\
  Spec.ci_eq "<Final>" "<FINAL>" /\
  Spec.ci_eq "</final>" "</FINAL>" /\
  _extract_final_answer
    ("The answer is " ++ "<Final>" ++ " 14 " ++ "</final>" ++ " <FINAL>15</FINAL>")
    = Some (Text.strip " 14 ").
Proof.
  repeat (split; [reflexivity|]).
  apply final_answer_round_trip; reflexivity.
Defined.

Lemma agreement_round_trip_witness :
  no_open_angle "I see. " = true /\
  Spec.ci_eq "<agree>" "<AGREE>" /\
  Spec.ci_eq "FALSE" (Spec.token_of false) /\
  Spec.ci_eq "</Agree>" "</AGREE>" /\
  _extract_agreement
    ("I see. " ++ "<agree>" ++ "FALSE" ++ "</Agree>" ++ " <AGREE>true</AGREE>")
    = Some false.
Proof.
  repeat (split; [reflexivity|]).
  apply agreement_round_trip; reflexivity.
Defined.

Section Extension.

(** A literal that fits in [u] matches in [u ++ t] as it does in [u]. *)
Lemma imatch_app (lit u t : string) :
  (String.length lit <= String.length u)%nat ->
  Re.imatch lit (u ++ t) =
  match Re.imatch lit u with
  | Some (m, r) => Some (m, r ++ t)
  | None => None
  end.
Proof.
  revert u. induction lit as [|p lit IH]; intros u L; [reflexivity|].
  destruct u as [|x u]; cbn in L; [lia|].
  cbn. destruct (Re.ieqb p x); [|reflexivity].
  rewrite IH by lia. destruct (Re.imatch lit u) as [[m r]|]; reflexivity.
Qed.

Lemma imatch_length (lit u m r : string) :
  Re.imatch lit u = Some (m, r) ->
  String.length u = (String.length lit + String.length r)%nat.
Proof.
  intro H. apply imatch_Some in H. destruct H as [-> H].
  rewrite len_app, (ci_eq_len _ _ H). reflexivity.
Qed.

Lemma imatch_grows (lit u t m r : string) :
  Re.imatch lit u = Some (m, r) ->
  Re.imatch lit (u ++ t) = Some (m, r ++ t).
Proof.
  intro H. rewrite imatch_app, H; [reflexivity|].
  rewrite (imatch_length _ _ _ _ H). lia.
Qed.

Lemma token_then_close_app (tok close r t : string) :
  (String.length tok + String.length close <= String.length r)%nat ->
  Re.token_then_close tok close (r ++ t) = Re.token_then_close tok close r.
Proof.
  intro L. unfold Re.token_then_close. rewrite imatch_app by lia.
  destruct (Re.imatch tok r) as [[g r']|] eqn:E; [|reflexivity].
  apply imatch_length in E. rewrite imatch_app by lia.
  destruct (Re.imatch close r') as [[c r'']|]; reflexivity.
Qed.

(** An attempt for the agreement tag only reads 20 characters. *)
Lemma AGREE_TAG_at_app (u t : string) :
  (20 <= String.length u)%nat ->
  Re.AGREE_TAG_at (u ++ t) = Re.AGREE_TAG_at u.
Proof.
  intro L. unfold Re.AGREE_TAG_at. rewrite imatch_app by (cbn; lia).
  destruct (Re.imatch "<AGREE>" u) as [[o r]|] eqn:E; [|reflexivity].
  apply imatch_length in E. cbn in E.
  rewrite !token_then_close_app by (cbn; lia). reflexivity.
Qed.

Lemma token_then_close_grows (tok close r t g : string) :
  Re.token_then_close tok close r = Some g ->
  Re.token_then_close tok close (r ++ t) = Some g /\
  (String.length tok + String.length close <= String.length r)%nat.
Proof.
  unfold Re.token_then_close.
  destruct (Re.imatch tok r) as [[g' r']|] eqn:E1; [|discriminate].
  destruct (Re.imatch close r') as [[c r'']|] eqn:E2; [|discriminate].
  intros [= ->].
  rewrite (imatch_grows _ _ t _ _ E1), (imatch_grows _ _ t _ _ E2).
  apply imatch_length in E1, E2. split; [reflexivity | lia].
Qed.

Lemma AGREE_TAG_at_grows (u t g : string) :
  Re.AGREE_TAG_at u = Some g ->
  Re.AGREE_TAG_at (u ++ t) = Some g /\ (19 <= String.length u)%nat.
Proof.
  unfold Re.AGREE_TAG_at.
  destruct (Re.imatch "<AGREE>" u) as [[o r]|] eqn:E; [|discriminate].
  rewrite (imatch_grows _ _ t _ _ E). apply imatch_length in E. cbn in E.
  destruct (Re.token_then_close "true" "</AGREE>" r) as [g1|] eqn:E1.
  - intros [= ->]. apply (token_then_close_grows _ _ _ t) in E1.
    destruct E1 as [-> L]. cbn in L. split; [reflexivity | lia].
  - intro E2. apply (token_then_close_grows _ _ _ t) in E2.
    destruct E2 as [E2 L]. cbn in L.
    rewrite token_then_close_app by (cbn; lia). rewrite E1, E2.
    split; [reflexivity | lia].
Qed.

(** The first match of a search survives when text is appended,
    provided this holds of the attempt where it succeeds and where it
    fails ahead of a later success. *)
Lemma search_grows {A} (f : string -> option A) (t : string) :
  (forall u g, f u = Some g -> f (u ++ t) = Some g) ->
  (forall x u g, f (String x u) = None -> Re.search f u = Some g ->
                 f (String x u ++ t) = None) ->
  forall s g, Re.search f s = Some g -> Re.search f (s ++ t) = Some g.
Proof.
  intros Hyes Hno. induction s as [|x s IH]; intros g.
  - cbn [Re.search]. destruct (f "") as [g'|] eqn:E; [|discriminate].
    intros [= <-]. apply search_here. apply (Hyes "" g' E).
  - cbn [Re.search append]. destruct (f (String x s)) as [g'|] eqn:E.
    + intros [= <-]. apply (Hyes _ _) in E. cbn [append] in E. rewrite E.
      reflexivity.
    + intro H. pose proof (Hno _ _ _ E H) as N. cbn [append] in N.
      rewrite N. apply IH, H.
Qed.

Lemma search_found_length {A} (f : string -> option A) (n : nat) :
  (forall u g, f u = Some g -> (n <= String.length u)%nat) ->
  forall s g, Re.search f s = Some g -> (n <= String.length s)%nat.
Proof.
  intros Hf s g H. apply search_Some in H.
  destruct H as (pre & post & -> & E & _).
  rewrite len_app. pose proof (Hf _ _ E). lia.
Qed.

End Extension.

(** X10.  An agreement flag found in a text is still the flag found
    when any text is appended: later tags never override the
    first. *)
Theorem agreement_ignores_what_follows (s t : string) (b : bool) :
  _extract_agreement s = Some b -> _extract_agreement (s ++ t) = Some b.
Proof.
  unfold _extract_agreement.
  destruct (Re.search Re.AGREE_TAG_at s) as [g|] eqn:E; [|discriminate].
  intros [= <-].
  rewrite (search_grows Re.AGREE_TAG_at t) with (g := g); auto.
  - intros u g' H. apply (AGREE_TAG_at_grows u t g' H).
  - intros x u g' N H. rewrite AGREE_TAG_at_app; [exact N|].
    assert (19 <= String.length u)%nat; [|cbn; lia].
    apply (search_found_length Re.AGREE_TAG_at 19) with (g := g'); auto.
    intros u' g'' H'. apply (AGREE_TAG_at_grows u' "" g'' H').
Qed.

Section FinalExtension.

Lemma lazy_until_length (close r g : string) :
  Re.lazy_until close r = Some g ->
  (String.length close <= String.length r)%nat.
Proof.
  intro H. apply lazy_until_Some in H.
  destruct H as (c & rest & -> & Hc & _).
  rewrite !len_app, (ci_eq_len _ _ Hc). lia.
Qed.

Lemma lazy_until_grows (close t : string) :
  forall r g, Re.lazy_until close r = Some g ->
              Re.lazy_until close (r ++ t) = Some g.
Proof.
  induction r as [|x r IH]; intro g.
  - cbn [Re.lazy_until]. destruct (Re.imatch close "") as [[m r']|] eqn:E;
      [|discriminate].
    intros [= <-]. apply (imatch_grows _ _ t) in E. cbn [append] in E |- *.
    destruct t; cbn [Re.lazy_until]; rewrite E; reflexivity.
  - cbn [Re.lazy_until append].
    destruct (Re.imatch close (String x r)) as [[m r']|] eqn:E.
    + intros [= <-]. apply (imatch_grows _ _ t) in E. cbn [append] in E.
      rewrite E. reflexivity.
    + destruct (Re.lazy_until close r) as [g0|] eqn:E0; [|discriminate].
      intros [= <-]. pose proof (lazy_until_length _ _ _ E0) as L.
      pose proof (imatch_app close (String x r) t) as A.
      cbn [append] in A. rewrite A by (cbn; lia). rewrite E.
      rewrite (IH g0 eq_refl). reflexivity.
Qed.

Lemma FINAL_TAG_at_grows (u t g : string) :
  Re.FINAL_TAG_at u = Some g ->
  Re.FINAL_TAG_at (u ++ t) = Some g /\ (15 <= String.length u)%nat.
Proof.
  unfold Re.FINAL_TAG_at.
  destruct (Re.imatch "<FINAL>" u) as [[o r]|] eqn:E; [|discriminate].
  rewrite (imatch_grows _ _ t _ _ E). intro H.
  apply imatch_length in E. pose proof (lazy_until_length _ _ _ H) as L.
  cbn in E, L. split; [apply lazy_until_grows, H | lia].
Qed.

(** The part of [o ++ r] behind a prefix at least as long as [o] lies
    in [r]. *)
Lemma tail_behind (o r a z : string) :
  o ++ r = a ++ z -> (String.length o <= String.length a)%nat ->
  exists a', r = a' ++ z.
Proof.
  revert a. induction o as [|x o IH]; intros a E L.
  - exists a. exact E.
  - destruct a as [|y a]; cbn in L; [lia|].
    cbn in E. injection E as _ E. apply (IH a E). lia.
Qed.

Lemma FINAL_TAG_at_stays_None (x : ascii) (u t g : string) :
  Re.FINAL_TAG_at (String x u) = None ->
  Re.search Re.FINAL_TAG_at u = Some g ->
  Re.FINAL_TAG_at (String x u ++ t) = None.
Proof.
  intros N H. apply search_Some in H.
  destruct H as (pre0 & post0 & -> & E & _).
  apply FINAL_TAG_at_Some in E.
  destruct E as (o' & c & rest & -> & Ho' & Hc & _).
  unfold Re.FINAL_TAG_at in *.
  rewrite imatch_app
    by (cbn; rewrite !len_app, (ci_eq_len _ _ Ho'); cbn; lia).
  destruct (Re.imatch "<FINAL>" (String x (pre0 ++ o' ++ g ++ c ++ rest)))
    as [[o r]|] eqn:Eo; [|reflexivity].
  exfalso. apply imatch_Some in Eo. destruct Eo as [Eo Ho].
  assert (Ea : o ++ r = (String x (pre0 ++ o' ++ g)) ++ c ++ rest).
  { rewrite <- Eo. cbn. rewrite !app_assoc3. reflexivity. }
  apply tail_behind in Ea.
  - destruct Ea as (a' & ->). rewrite lazy_until_None in N.
    exact (N a' c rest eq_refl Hc).
  - cbn. rewrite !len_app, (ci_eq_len _ _ Ho), (ci_eq_len _ _ Ho'). cbn. lia.
Qed.

End FinalExtension.

(** X11.  A final answer found in a text is still the answer found
    when any text is appended. *)
Theorem final_answer_ignores_what_follows (s t a : string) :
  _extract_final_answer s = Some a -> _extract_final_answer (s ++ t) = Some a.
Proof.
  unfold _extract_final_answer.
  destruct (Re.search Re.FINAL_TAG_at s) as [g|] eqn:E; [|discriminate].
  intros [= <-].
  rewrite (search_grows Re.FINAL_TAG_at t) with (g := g); auto.
  - intros u g' H. apply (FINAL_TAG_at_grows u t g' H).
  - intros x u g' N H. apply (FINAL_TAG_at_stays_None x u t g' N H).
Qed.

(** X12.  An extracted final answer has no white space at its ends
    and holds no closing finalization tag, in any letter case. *)
Theorem extracted_answer_is_clean (s a : string) :
  _extract_final_answer s = Some a ->
  Spec.tight a /\
  forall n, ~ Spec.occurs_at (fun c => Spec.ci_eq c "</FINAL>") n a.
Proof.
  unfold _extract_final_answer.
  destruct (Re.search Re.FINAL_TAG_at s) as [g|] eqn:E; [|discriminate].
  intros [= <-].
  destruct (strip_trimmed g) as (l & r & Eg & _ & _ & Ht).
  split; [exact Ht|].
  intros n (pre & c' & post' & Ea & _ & Hc').
  apply search_Some in E. destruct E as (pre0 & post0 & _ & E & _).
  apply FINAL_TAG_at_Some in E.
  destruct E as (o & c & rest & _ & _ & _ & Hshort).
  assert (Es : g ++ c ++ rest
               = (l ++ pre) ++ c' ++ (post' ++ r ++ c ++ rest)).
  { rewrite Eg at 1. rewrite Ea. rewrite !app_assoc3. reflexivity. }
  pose proof (Hshort _ _ _ Es Hc') as L.
  rewrite Eg, Ea in L. rewrite !len_app in L.
  rewrite (ci_eq_len _ _ Hc') in L. cbn in L. lia.
Qed.

Lemma agreement_ignores_what_follows_witness :
  _extract_agreement "<AGREE>false</AGREE> Show the steps." = Some false /\
  _extract_agreement
    ("<AGREE>false</AGREE> Show the steps." ++ " <AGREE>true</AGREE>")
    = Some false.
Proof.
  split; [reflexivity|].
  apply agreement_ignores_what_follows. reflexivity.
Defined.

Lemma final_answer_ignores_what_follows_witness :
  _extract_final_answer "So <FINAL> 14 </FINAL>" = Some "14" /\
  _extract_final_answer ("So <FINAL> 14 </FINAL>" ++ " or <FINAL>15</FINAL>")
    = Some "14".
Proof.
  split; [reflexivity|].
  apply final_answer_ignores_what_follows. reflexivity.
Defined.

Lemma extracted_answer_is_clean_witness :
  _extract_final_answer "<FINAL> a </FINAL> b </FINAL>" = Some "a" /\
  Spec.tight "a" /\
  forall n, ~ Spec.occurs_at (fun c => Spec.ci_eq c "</FINAL>") n "a".
Proof.
  split; [reflexivity|].
  apply (extracted_answer_is_clean "<FINAL> a </FINAL> b </FINAL>" "a").
  reflexivity.
Defined.

Section SplitSystem.

Lemma split_system_from (messages : list Prompts.Message) :
  forall (sys : option string) (conv : list Prompts.Message),
    fold_left
      (fun (acc : option string * list Prompts.Message) msg =>
         let (system_message, conversation_messages) := acc in
         if String.eqb (Prompts.role msg) "system"
         then (Some (Prompts.content msg), conversation_messages)
         else (system_message,
               (conversation_messages
                  ++ [Prompts.mkMessage (Prompts.role msg)
                                        (Prompts.content msg)])%list))
      messages (sys, conv)
    = (match rev (filter is_system messages) with
       | [] => sys
       | m :: _ => Some (Prompts.content m)
       end,
       (conv ++ filter (fun m => negb (is_system m)) messages)%list).
Proof.
  induction messages as [|[r c] ms IH]; intros sys conv.
  - cbn. rewrite app_nil_r. reflexivity.
  - cbn [fold_left filter Prompts.role Prompts.content].
    change (is_system (Prompts.mkMessage r c)) with (String.eqb r "system").
    destruct (String.eqb r "system") eqn:E; cbn [negb]; rewrite IH.
    + f_equal. cbn [rev].
      destruct (rev (filter is_system ms)) as [|m l]; reflexivity.
    + rewrite <- app_assoc. reflexivity.
Qed.

End SplitSystem.

(** X13.  The conversion for the Anthropic client keeps every
    message that is not a system message, in order, and takes the
    content of the last system message as system prompt (none when
    there is no system message). *)
Theorem split_system_keeps_conversation (messages : list Prompts.Message) :
  snd (split_system messages)
    = filter (fun m => negb (is_system m)) messages /\
  fst (split_system messages)
    = match rev (filter is_system messages) with
      | [] => None
      | m :: _ => Some (Prompts.content m)
      end.
Proof.
  unfold split_system. rewrite split_system_from. split; reflexivity.
Qed.

Lemma filter_all {A} (p : A -> bool) (l : list A) :
  Forall (fun x => p x = true) l -> filter p l = l.
Proof.
  induction 1 as [|x l Hx _ IH]; cbn; [reflexivity|].
  rewrite Hx, IH. reflexivity.
Qed.

Lemma filter_none {A} (p : A -> bool) (l : list A) :
  Forall (fun x => p x = false) l -> filter p l = [].
Proof.
  induction 1 as [|x l Hx _ IH]; cbn; [reflexivity|].
  rewrite Hx, IH. reflexivity.
Qed.

Lemma examples_not_system (f : string -> string)
    (examples : list (string * string)) :
  Forall (fun m => is_system m = false)
    (flat_map (fun example =>
                 [Prompts.mkMessage "user" (f (fst example));
                  Prompts.mkMessage "assistant" (snd example)])
              examples).
Proof.
  induction examples as [|x l IH]; cbn; repeat constructor. exact IH.
Qed.

(** X14.  The messages built for Neil pass the conversion whole when
    the history holds no system message: Neil's system prompt becomes
    the system prompt and all other messages form the conversation,
    in order. *)
Theorem neil_messages_reach_the_client (T : Prompts.Templates)
    (terrence_response : string) (history : list Prompts.Message) :
  Forall (fun m => Prompts.role m <> "system") history ->
  split_system (Prompts.get_neil_messages T terrence_response history)
    = (Some (Prompts.NEIL_SYSTEM_PROMPT T),
       tl (Prompts.get_neil_messages T terrence_response history)).
Proof.
  intro H.
  assert (Hh : Forall (fun m => is_system m = false) history).
  { eapply Forall_impl; [|exact H]. intros m Hm. unfold is_system.
    apply String.eqb_neq. exact Hm. }
  pose proof (split_system_keeps_conversation
                (Prompts.get_neil_messages T terrence_response history))
    as [Hs Hf].
  destruct (split_system _) as [sys conv]. cbn [fst snd] in Hs, Hf.
  subst sys conv.
  assert (Hrest : Forall (fun m => is_system m = false)
                    (tl (Prompts.get_neil_messages T terrence_response history))).
  { unfold Prompts.get_neil_messages. cbv zeta.
    destruct history as [|m0 h]; cbn [tl app].
    - apply Forall_app; split; [apply examples_not_system|].
      repeat constructor.
    - apply Forall_app; split;
        [apply Forall_app; split; [apply examples_not_system | exact Hh]|].
      repeat constructor. }
  assert (Es : Prompts.get_neil_messages T terrence_response history
               = Prompts.mkMessage "system" (Prompts.NEIL_SYSTEM_PROMPT T)
                 :: tl (Prompts.get_neil_messages T terrence_response history)).
  { unfold Prompts.get_neil_messages. cbv zeta.
    destruct history; reflexivity. }
  rewrite Es at 1 2. cbn [filter is_system Prompts.role String.eqb Ascii.eqb
                          Bool.eqb negb].
  change (is_system (Prompts.mkMessage "system" (Prompts.NEIL_SYSTEM_PROMPT T)))
    with true.
  cbn [negb].
  rewrite (filter_none _ _ Hrest). cbn [rev app Prompts.content].
  rewrite filter_all; [reflexivity|].
  eapply Forall_impl; [|exact Hrest]. intros m Hm. rewrite Hm. reflexivity.
Qed.

(** X15.  The messages built for Terrence start with the system
    prompt; with no history they end with the request to calculate the
    expression; with a history they do not depend on the expression at
    all (the history takes the place of the request); their number is
    one, two per example, and the length of the history or 1. *)
Theorem expression_only_in_opening_request (T : Prompts.Templates) :
  (forall expression history,
     hd_error (Prompts.get_terrence_messages T expression history)
       = Some (Prompts.mkMessage "system" (Prompts.TERRENCE_SYSTEM_PROMPT T))) /\
  (forall expression,
     last (Prompts.get_terrence_messages T expression [])
          (Prompts.mkMessage "" "")
       = Prompts.mkMessage "user" ("Calculate: " ++ expression)) /\
  (forall expression expression' history,
     history <> [] ->
     Prompts.get_terrence_messages T expression history
       = Prompts.get_terrence_messages T expression' history) /\
  (forall expression history,
     List.length (Prompts.get_terrence_messages T expression history)
       = (1 + 2 * List.length (Prompts.TERRENCE_EXAMPLES T)
            + Nat.max 1 (List.length history))%nat).
Proof.
  unfold Prompts.get_terrence_messages. cbv zeta. repeat split.
  - intros expression [|m h]; reflexivity.
  - intro expression. rewrite last_last. reflexivity.
  - intros e1 e2 [|m h] H; [congruence | reflexivity].
  - intros expression history.
    assert (L : forall l : list (string * string),
               List.length
                 (flat_map (fun example =>
                              [Prompts.mkMessage "user" (fst example);
                               Prompts.mkMessage "assistant" (snd example)]) l)
               = (2 * List.length l)%nat)
      by (induction l as [|x l IH]; cbn; [|rewrite IH]; lia).
    destruct history as [|m h]; cbn [app List.length];
      rewrite ?length_app, L; cbn [List.length]; lia.
Qed.

Lemma neil_messages_reach_the_client_witness :
  Forall (fun m => Prompts.role m <> "system")
    [Prompts.mkMessage "assistant" "2 + 3 = 5";
     Prompts.mkMessage "user" "Neil says: <AGREE>false</AGREE> Why?"] /\
  split_system
    (Prompts.get_neil_messages Scripted.templates "Because 2 + 3 = 5"
       [Prompts.mkMessage "assistant" "2 + 3 = 5";
        Prompts.mkMessage "user" "Neil says: <AGREE>false</AGREE> Why?"])
  = (Some (Prompts.NEIL_SYSTEM_PROMPT Scripted.templates),
     tl (Prompts.get_neil_messages Scripted.templates "Because 2 + 3 = 5"
           [Prompts.mkMessage "assistant" "2 + 3 = 5";
            Prompts.mkMessage "user" "Neil says: <AGREE>false</AGREE> Why?"])).
Proof.
  assert (H : Forall (fun m => Prompts.role m <> "system")
                [Prompts.mkMessage "assistant" "2 + 3 = 5";
                 Prompts.mkMessage "user" "Neil says: <AGREE>false</AGREE> Why?"])
    by (repeat constructor; discriminate).
  split; [exact H|].
  apply (neil_messages_reach_the_client Scripted.templates
           "Because 2 + 3 = 5" _ H).
Defined.

Lemma expression_only_in_opening_request_witness :
  [Prompts.mkMessage "assistant" "2 + 3 = 5"] <> [] /\
  Prompts.get_terrence_messages Scripted.templates "2 + 3"
    [Prompts.mkMessage "assistant" "2 + 3 = 5"]
  = Prompts.get_terrence_messages Scripted.templates "7 * 6"
      [Prompts.mkMessage "assistant" "2 + 3 = 5"].
Proof.
  assert (H : [Prompts.mkMessage "assistant" "2 + 3 = 5"] <> [])
    by discriminate.
  split; [exact H|].
  exact (proj1 (proj2 (proj2 (expression_only_in_opening_request
                                Scripted.templates)))
           "2 + 3" "7 * 6" [Prompts.mkMessage "assistant" "2 + 3 = 5"] H).
Defined.

Section Typeout.

Lemma substring_empty (i m : nat) : substring i m "" = "".
Proof. destruct i, m; reflexivity. Qed.

Lemma substring_none (s : string) : forall i, substring i 0 s = "".
Proof.
  induction s as [|c s IH]; intros [|i]; cbn; auto.
Qed.

Lemma substring_split (s : string) :
  forall i x y,
    substring i (x + y) s = substring i x s ++ substring (i + x) y s.
Proof.
  induction s as [|c s IH]; intros i x y.
  - rewrite !substring_empty. reflexivity.
  - destruct i as [|i].
    + destruct x as [|x]; [reflexivity|].
      cbn. rewrite (IH 0%nat x y). reflexivity.
    + cbn. apply IH.
Qed.

Lemma substring_all (s : string) :
  forall m, (String.length s <= m)%nat -> substring 0 m s = s.
Proof.
  induction s as [|c s IH]; intros m L.
  - apply substring_empty.
  - destruct m as [|m]; cbn in L; [lia|]. cbn. rewrite IH by lia. reflexivity.
Qed.

Lemma substring_length (s : string) :
  forall i m, (i + m <= String.length s)%nat ->
              String.length (substring i m s) = m.
Proof.
  induction s as [|c s IH]; intros i m L; cbn in L.
  - assert (i = 0 /\ m = 0)%nat as [-> ->] by lia. reflexivity.
  - destruct i as [|i].
    + destruct m as [|m]; [reflexivity|]. cbn. rewrite IH by lia. reflexivity.
    + cbn. apply IH. lia.
Qed.

Variable text : string.
Variable d : nat.
Hypothesis d_pos : (1 <= d)%nat.

Local Notation "'m'" := (chunk_count (String.length text) d).

Lemma chunks_cover : (String.length text <= m * d)%nat /\
                     (forall a, (a * d + d < String.length text)%nat
                                <-> (a + 1 < m)%nat).
Proof.
  unfold chunk_count.
  pose proof (Nat.div_mod_eq (String.length text + d - 1) d) as E.
  pose proof (Nat.mod_upper_bound (String.length text + d - 1) d) as U.
  set (q := ((String.length text + d - 1) / d)%nat) in *.
  set (r := ((String.length text + d - 1) mod d)%nat) in *.
  split; [nia|]. intro a. split; intro H; nia.
Qed.

Lemma steps_from (k : nat) :
  forall a, (a + k = m)%nat ->
    let events :=
      flat_map (typeout_step text (Z.of_nat d))
               (map (fun j => (j * d)%nat) (seq a k)) in
    join (emitted events) = substring (a * d) (k * d) text /\
    List.length (emitted events) = k /\
    paused events = repeat d (k - 1).
Proof.
  induction k as [|k IH]; intros a Ha; cbv zeta.
  - cbn. rewrite substring_none. auto.
  - cbn [seq map flat_map].
    destruct (IH (S a) ltac:(lia)) as (IHj & IHn & IHp).
    assert (Hstep : typeout_step text (Z.of_nat d) (a * d)
                    = Emit (substring (a * d) d text)
                      :: (if (Z.of_nat (a * d) + Z.of_nat d
                                <? Z.of_nat (String.length text))%Z
                          then [Pause (String.length (substring (a * d) d text))]
                          else []))
      by (unfold typeout_step; rewrite Nat2Z.id; reflexivity).
    rewrite Hstep. clear Hstep.
    destruct chunks_cover as [_ Hc].
    destruct (Z.of_nat (a * d) + Z.of_nat d <? Z.of_nat (String.length text))%Z
      eqn:E.
    + apply Z.ltb_lt in E.
      assert (Hlt : (a * d + d < String.length text)%nat) by lia.
      cbn [app emitted paused join fold_right List.length].
      fold (join (emitted (flat_map (typeout_step text (Z.of_nat d))
                             (map (fun j => (j * d)%nat) (seq (S a) k))))).
      rewrite IHj, IHn, IHp. repeat split.
      * replace (S k * d)%nat with (d + k * d)%nat by lia.
        rewrite substring_split. f_equal. f_equal. lia.
      * rewrite substring_length by lia.
        apply Hc in Hlt.
        destruct k as [|k]; [lia|]. cbn. rewrite Nat.sub_0_r. reflexivity.
    + apply Z.ltb_ge in E.
      assert (Hge : ~ (a * d + d < String.length text)%nat) by lia.
      rewrite Hc in Hge. assert (k = 0)%nat by lia. subst k.
      cbn. rewrite app_nil_right. repeat split. f_equal. lia.
Qed.

End Typeout.

Lemma emitted_with_pauses (chunks : list string) :
  emitted (with_pauses chunks) = chunks.
Proof.
  induction chunks as [|c [|c' rest] IH]; [reflexivity | reflexivity |].
  change (with_pauses (c :: c' :: rest))
    with (Emit c :: Pause (String.length c) :: with_pauses (c' :: rest)).
  cbn [emitted]. rewrite IH. reflexivity.
Qed.

Section Interleaving.

Variable text : string.
Variable d : nat.
Hypothesis d_pos : (1 <= d)%nat.

Local Notation "'m'" := (chunk_count (String.length text) d).

Lemma steps_interleaved (k : nat) :
  forall a, (a + k = m)%nat ->
    let chunks := map (fun j => substring (j * d) d text) (seq a k) in
    flat_map (typeout_step text (Z.of_nat d))
             (map (fun j => (j * d)%nat) (seq a k))
      = with_pauses chunks /\
    Forall (fun chunk => String.length chunk = d) (removelast chunks).
Proof.
  induction k as [|k IH]; intros a Ha; cbv zeta.
  - cbn. split; [reflexivity | constructor].
  - cbn [seq map flat_map].
    destruct (IH (S a) ltac:(lia)) as (IHe & IHl). cbv zeta in IHe, IHl.
    assert (Hstep : typeout_step text (Z.of_nat d) (a * d)
                    = Emit (substring (a * d) d text)
                      :: (if (Z.of_nat (a * d) + Z.of_nat d
                                <? Z.of_nat (String.length text))%Z
                          then [Pause (String.length (substring (a * d) d text))]
                          else []))
      by (unfold typeout_step; rewrite Nat2Z.id; reflexivity).
    rewrite Hstep. clear Hstep. rewrite IHe.
    destruct (chunks_cover text d d_pos) as [_ Hc].
    destruct (Z.of_nat (a * d) + Z.of_nat d <? Z.of_nat (String.length text))%Z
      eqn:E.
    + apply Z.ltb_lt in E.
      assert (Hlt : (a * d + d < String.length text)%nat) by lia.
      pose proof (proj1 (Hc a) Hlt) as Hm.
      destruct k as [|k]; [lia|].
      cbn [seq map] in IHl |- *. split; [reflexivity|].
      cbn [removelast]. constructor; [|exact IHl].
      apply substring_length. lia.
    + apply Z.ltb_ge in E.
      assert (Hge : ~ (a * d + d < String.length text)%nat) by lia.
      rewrite Hc in Hge. assert (k = 0)%nat by lia. subst k.
      cbn. split; [reflexivity | constructor].
Qed.

End Interleaving.

(** X16.  With a chunk size of at least 1 the typing effect returns
    normally and does exactly this: it hands the text to the output
    callback chunk by chunk, in order, and sleeps after every chunk
    but the last, each time for the number of characters of the chunk
    just emitted, which is the chunk size. *)
Theorem typeout_emits_the_text (text : string) (chunk_size : Z) :
  (1 <= chunk_size)%Z ->
  exists chunks,
    typeout_effect text chunk_size = Returned (with_pauses chunks) /\
    join chunks = text /\
    Forall (fun chunk => String.length chunk = Z.to_nat chunk_size)
           (removelast chunks) /\
    paused (with_pauses chunks)
      = repeat (Z.to_nat chunk_size) (List.length chunks - 1).
Proof.
  intro H. unfold typeout_effect.
  destruct text as [|c text']; [exists []; repeat split; constructor|].
  set (text := String c text'). cbn [Text.truthy negb].
  unfold range_step.
  destruct (Z.eqb_spec chunk_size 0); [lia|].
  destruct (Z.ltb_spec chunk_size 0); [lia|].
  cbv zeta.
  assert (Hd : (1 <= Z.to_nat chunk_size)%nat) by lia.
  pose proof (steps_from text (Z.to_nat chunk_size) Hd _ 0%nat eq_refl) as S.
  pose proof (steps_interleaved text (Z.to_nat chunk_size) Hd _ 0%nat eq_refl)
    as I.
  cbv zeta in S, I. rewrite Z2Nat.id in S, I by lia.
  unfold chunk_count in *.
  destruct I as (Ie & Il). destruct S as (Sj & Sn & Sp).
  rewrite Ie in Sj, Sn, Sp |- *. rewrite emitted_with_pauses in Sj, Sn.
  eexists. split; [reflexivity|].
  split.
  { rewrite Sj. apply substring_all.
    apply (chunks_cover text (Z.to_nat chunk_size)). lia. }
  split; [exact Il|].
  rewrite Sp, Sn. reflexivity.
Qed.

(** X17.  The typing effect on the empty text does nothing whatever
    the chunk size; on a text that is not empty a chunk size of 0
    raises and a negative chunk size emits nothing. *)
Theorem typeout_edge_cases (text : string) (chunk_size : Z) :
  typeout_effect "" chunk_size = Returned [] /\
  (text <> "" ->
   typeout_effect text 0 = Raised "range() arg 3 must not be zero") /\
  ((chunk_size < 0)%Z -> typeout_effect text chunk_size = Returned []).
Proof.
  repeat split.
  - intro H. destruct text; [congruence | reflexivity].
  - intro H. unfold typeout_effect, range_step.
    destruct (Text.truthy text); cbn [negb]; [|reflexivity].
    destruct (Z.eqb_spec chunk_size 0); [lia|].
    destruct (Z.ltb_spec chunk_size 0); [reflexivity | lia].
Qed.

Lemma typeout_edge_cases_witness :
  "2 + 3" <> "" /\
  typeout_effect "2 + 3" 0 = Raised "range() arg 3 must not be zero".
Proof.
  assert (H : "2 + 3" <> "") by discriminate.
  split; [exact H|].
  exact (proj1 (proj2 (typeout_edge_cases "2 + 3" 0%Z)) H).
Defined.

Lemma typeout_emits_the_text_witness :
  (1 <= 4)%Z /\
  exists chunks,
    typeout_effect "2 + 3 = 5" 4 = Returned (with_pauses chunks) /\
    join chunks = "2 + 3 = 5" /\
    Forall (fun chunk => String.length chunk = Z.to_nat 4)
           (removelast chunks) /\
    paused (with_pauses chunks)
      = repeat (Z.to_nat 4) (List.length chunks - 1).
Proof.
  split; [lia|]. apply typeout_emits_the_text. lia.
Defined.

Local Open Scope Z_scope.
